(** * OPR-Sim: the engagement simulator of [probabilityCalculator.js]

    A shallow embedding of the simulation half of the file (probability
    primitive, hit and save rolls, ranged and melee resolution, morale,
    the decision procedure and the turn loop) together with the
    properties of it that the specification states.

    Conventions of the embedding.
    - JavaScript numbers are integers ([Z]); the only fractions the
      code computes are the probabilities of [getSuccessChance] and the
      half of [originalNumModels], both kept exact in [Q].
    - An absent numeric field is represented by [0]: [toughValue],
      [Deadly], [Modifier], [chargeRange] and [advanceRange] are only
      read through [|| d], a truthiness test or a [= 0] default, under
      which [undefined] and [0] behave alike.
    - [Math.random] is a stream [rnd : nat -> Z] of raw samples read
      through a cursor; a die is [rnd k mod 6 + 1].
    - Units and weapons are objects in a store, addressed by reference,
      so that what [cloneUnit] copies and what the loop mutates is
      visible. *)

From Stdlib Require Import ZArith QArith Lia Lqa String.
From stdpp Require Import base option list gmap strings.

Local Open Scope Z_scope.

(** ** Data model *)

(** A weapon object, as [parseUnitBlock] builds it, with the optional
    tags the resolver reads. *)
Record Weapon := {
  wname : string;
  count : Z;
  Range : Z;
  Attacks : Z;
  AP : Z;
  Furious : bool;
  Predator : bool;
  Deadly : Z
}.

(** A unit object. [W] is what the [weapons] array holds: references in
    the store, weapon values once the array has been read. The fields
    from [originalNumModels] on are the ones [cloneUnit] and the
    simulator add. *)
Record UnitOf (W : Type) := {
  name : string;
  numModels : Z;
  quality : Z;
  defense : Z;
  points : Z;
  toughValue : Z;
  Modifier : Z;
  specialRules : list string;
  weapons : list W;
  originalNumModels : Z;
  shaken : bool;
  hasFoughtInMeleeThisTurn : bool;
  advanceRange : Z;
  chargeRange : Z
}.

Arguments name {W} _.
Arguments numModels {W} _.
Arguments quality {W} _.
Arguments defense {W} _.
Arguments points {W} _.
Arguments toughValue {W} _.
Arguments Modifier {W} _.
Arguments specialRules {W} _.
Arguments weapons {W} _.
Arguments originalNumModels {W} _.
Arguments shaken {W} _.
Arguments hasFoughtInMeleeThisTurn {W} _.
Arguments advanceRange {W} _.
Arguments chargeRange {W} _.

Definition loc := positive.

(** A unit as the resolver functions see it: the weapons read out. *)
Definition Unit := UnitOf Weapon.
(** A unit as it lies in the store. *)
Definition UnitObj := UnitOf loc.

Inductive Action := idle | fight | advance | charge | hold | rush.

Inductive Morale := PASS | SHAKEN | RETREAT.

(** The text of a hold/advance log line. *)
Inductive ActionText :=
| HoldsAndShoots
| RetreatsAndShoots (r : Z)
| AdvancesAndShoots (r : Z).

(** One constructor per template string pushed on [log]; the arguments
    are the interpolated values. *)
Inductive LogEntry :=
| LogTurn (turn : Z)
| LogMeleeResult (n1 : string) (killsOnUnit2 : Z) (n2 : string) (killsOnUnit1 : Z)
| LogLostCombat (n : string)
| LogPassed (n : string)
| LogShaken (n : string)
| LogRetreats (n : string)
| LogDraw
| LogIdles (n : string)
| LogCharges (n o : string)
| LogFights (n o : string)
| LogShoots (n : string) (t : ActionText)
| LogKills (w : string) (kills : Z)
| LogRushes (n : string) (rushDist : Z).

(** ** Field updates *)

Definition with_weapons {W W'} (ws : list W') (u : UnitOf W) : UnitOf W' :=
  {| name := name u; numModels := numModels u; quality := quality u;
     defense := defense u; points := points u; toughValue := toughValue u;
     Modifier := Modifier u; specialRules := specialRules u; weapons := ws;
     originalNumModels := originalNumModels u; shaken := shaken u;
     hasFoughtInMeleeThisTurn := hasFoughtInMeleeThisTurn u;
     advanceRange := advanceRange u; chargeRange := chargeRange u |}.

Definition with_numModels {W} (n : Z) (u : UnitOf W) : UnitOf W :=
  {| name := name u; numModels := n; quality := quality u;
     defense := defense u; points := points u; toughValue := toughValue u;
     Modifier := Modifier u; specialRules := specialRules u; weapons := weapons u;
     originalNumModels := originalNumModels u; shaken := shaken u;
     hasFoughtInMeleeThisTurn := hasFoughtInMeleeThisTurn u;
     advanceRange := advanceRange u; chargeRange := chargeRange u |}.

Definition with_quality {W} (q : Z) (u : UnitOf W) : UnitOf W :=
  {| name := name u; numModels := numModels u; quality := q;
     defense := defense u; points := points u; toughValue := toughValue u;
     Modifier := Modifier u; specialRules := specialRules u; weapons := weapons u;
     originalNumModels := originalNumModels u; shaken := shaken u;
     hasFoughtInMeleeThisTurn := hasFoughtInMeleeThisTurn u;
     advanceRange := advanceRange u; chargeRange := chargeRange u |}.

Definition with_originalNumModels {W} (n : Z) (u : UnitOf W) : UnitOf W :=
  {| name := name u; numModels := numModels u; quality := quality u;
     defense := defense u; points := points u; toughValue := toughValue u;
     Modifier := Modifier u; specialRules := specialRules u; weapons := weapons u;
     originalNumModels := n; shaken := shaken u;
     hasFoughtInMeleeThisTurn := hasFoughtInMeleeThisTurn u;
     advanceRange := advanceRange u; chargeRange := chargeRange u |}.

Definition with_shaken {W} (b : bool) (u : UnitOf W) : UnitOf W :=
  {| name := name u; numModels := numModels u; quality := quality u;
     defense := defense u; points := points u; toughValue := toughValue u;
     Modifier := Modifier u; specialRules := specialRules u; weapons := weapons u;
     originalNumModels := originalNumModels u; shaken := b;
     hasFoughtInMeleeThisTurn := hasFoughtInMeleeThisTurn u;
     advanceRange := advanceRange u; chargeRange := chargeRange u |}.

Definition with_hasFought {W} (b : bool) (u : UnitOf W) : UnitOf W :=
  {| name := name u; numModels := numModels u; quality := quality u;
     defense := defense u; points := points u; toughValue := toughValue u;
     Modifier := Modifier u; specialRules := specialRules u; weapons := weapons u;
     originalNumModels := originalNumModels u; shaken := shaken u;
     hasFoughtInMeleeThisTurn := b;
     advanceRange := advanceRange u; chargeRange := chargeRange u |}.

Definition with_advanceRange {W} (r : Z) (u : UnitOf W) : UnitOf W :=
  {| name := name u; numModels := numModels u; quality := quality u;
     defense := defense u; points := points u; toughValue := toughValue u;
     Modifier := Modifier u; specialRules := specialRules u; weapons := weapons u;
     originalNumModels := originalNumModels u; shaken := shaken u;
     hasFoughtInMeleeThisTurn := hasFoughtInMeleeThisTurn u;
     advanceRange := r; chargeRange := chargeRange u |}.

Definition with_chargeRange {W} (r : Z) (u : UnitOf W) : UnitOf W :=
  {| name := name u; numModels := numModels u; quality := quality u;
     defense := defense u; points := points u; toughValue := toughValue u;
     Modifier := Modifier u; specialRules := specialRules u; weapons := weapons u;
     originalNumModels := originalNumModels u; shaken := shaken u;
     hasFoughtInMeleeThisTurn := hasFoughtInMeleeThisTurn u;
     advanceRange := advanceRange u; chargeRange := r |}.

(** ** Core probability function *)

(** [getSuccessChance(target)]. *)
Definition getSuccessChance (target : Z) : Q :=
  if 6 <? target then 1 # 6
  else
    let target := if target <? 2 then 2 else target in
    inject_Z (6 - target + 1) / 6.

(** [a > b] on the exact fractions. *)
Definition Qgtb (a b : Q) : bool := negb (Qle_bool a b).

(** [a || d] on numbers: [d] when [a] is falsy. *)
Definition orDefault (a d : Z) : Z := if a =? 0 then d else a.

(** [rules?.includes(tag)]. *)
Definition includes (tag : string) (rules : list string) : bool :=
  existsb (String.eqb tag) rules.

(** ** Dice *)

(** A computation that draws from [Math.random]: it takes the cursor
    into the sample stream and returns it advanced. *)
Definition Rand (A : Type) : Type := nat -> A * nat.

Definition rand_ret {A} (a : A) : Rand A := fun k => (a, k).

Definition rand_bind {A B} (m : Rand A) (f : A -> Rand B) : Rand B :=
  fun k => let '(a, k') := m k in f a k'.

Notation "'draw' x <- m 'in' f" := (rand_bind m (fun x => f))
  (at level 10, x pattern, m at level 100, f at level 200).

Record HitRolls := { successes : Z; sixes : Z }.

Record Hits := { hits : Z; ap : Z }.

Record RangedResult := { inRange : bool; totalWounds : Z }.

Record MeleeResult := { totalWoundsToDefender : Z; totalWoundsToAttacker : Z }.

(** The fallback [{ Attacks: 1, AP: 0 }] of [find(...) || ...]; the
    fields it lacks are never read from it. *)
Definition baselineWeapon : Weapon :=
  {| wname := EmptyString; count := 0; Range := 0; Attacks := 1; AP := 0;
     Furious := false; Predator := false; Deadly := 0 |}.

(** [weapons.find(w => w.Range === 0) || { Attacks: 1, AP: 0 }]. *)
Definition meleeWeapon (u : Unit) : Weapon :=
  default baselineWeapon (find (fun w => Range w =? 0) (weapons u)).

(** [hasFoughtInMeleeThisTurn ? 6 : quality]. *)
Definition effectiveQuality {W} (u : UnitOf W) : Z :=
  if hasFoughtInMeleeThisTurn u then 6 else quality u.

(** [if (w.Deadly) wounds *= w.Deadly]. *)
Definition applyDeadly (w : Weapon) (wounds : Z) : Z :=
  if Deadly w =? 0 then wounds else wounds * Deadly w.

Section Resolver.

Variable rnd : nat -> Z.

(** [Math.floor(Math.random() * 6) + 1]. *)
Definition rollDie : Rand Z := fun k => (rnd k mod 6 + 1, S k).

(** One iteration of the loop of [simulateHitRolls]. *)
Definition hitRollStep (target : Z) (acc : HitRolls) (roll : Z) : HitRolls :=
  if roll =? 1 then acc
  else if roll =? 6 then {| successes := successes acc + 1; sixes := sixes acc + 1 |}
  else if target <=? roll then {| successes := successes acc + 1; sixes := sixes acc |}
  else acc.

Fixpoint hitRollLoop (n : nat) (target : Z) (acc : HitRolls) : Rand HitRolls :=
  match n with
  | O => rand_ret acc
  | S n' => draw roll <- rollDie in hitRollLoop n' target (hitRollStep target acc roll)
  end.

(** [simulateHitRolls(numDice, quality, modifier)]: the loop runs
    [numDice] times, not at all for a count below one. *)
Definition simulateHitRolls (numDice quality modifier : Z) : Rand HitRolls :=
  hitRollLoop (Z.to_nat numDice) (quality - modifier) {| successes := 0; sixes := 0 |}.

(** One iteration of the loop of [simulateDefenseRolls]. *)
Definition defenseRollStep (target : Z) (acc : Z) (roll : Z) : Z :=
  if roll =? 1 then acc
  else if roll =? 6 then acc + 1
  else if target <=? roll then acc + 1
  else acc.

Fixpoint defenseRollLoop (n : nat) (target : Z) (acc : Z) : Rand Z :=
  match n with
  | O => rand_ret acc
  | S n' => draw roll <- rollDie in defenseRollLoop n' target (defenseRollStep target acc roll)
  end.

(** [simulateDefenseRolls(numDice, defense, ap)]. *)
Definition simulateDefenseRolls (numDice defense ap : Z) : Rand Z :=
  defenseRollLoop (Z.to_nat numDice) (defense + ap) 0.

(** [calculateHits({ weaponProfile, attackerStats, numModels })]; only
    [quality] and [Modifier] of [attackerStats] are read. *)
Definition calculateHits {W} (weaponProfile : Weapon) (attackerStats : UnitOf W)
    (nModels : Z) : Rand Hits :=
  let totalDice := nModels * Attacks weaponProfile in
  draw hitResults <- simulateHitRolls totalDice (quality attackerStats) (Modifier attackerStats) in
  let totalHits := successes hitResults in
  let totalHits := if Furious weaponProfile then totalHits + sixes hitResults else totalHits in
  if Predator weaponProfile && (0 <? sixes hitResults) then
    draw bonusRolls <- simulateHitRolls (sixes hitResults) (quality attackerStats)
                         (Modifier attackerStats) in
    rand_ret {| hits := totalHits + successes bonusRolls; ap := AP weaponProfile |}
  else rand_ret {| hits := totalHits; ap := AP weaponProfile |}.

(** [rangedAttack({ weaponProfile, attackerStats, numModels, targetStats,
    distanceToTarget })]. *)
Definition rangedAttack {W} (weaponProfile : Weapon) (attackerStats : UnitOf W)
    (nModels : Z) (targetStats : UnitOf W) (distanceToTarget : Z) : Rand RangedResult :=
  if Range weaponProfile <? distanceToTarget then
    rand_ret {| inRange := false; totalWounds := 0 |}
  else
    draw h <- calculateHits weaponProfile attackerStats nModels in
    draw successfulSaves <- simulateDefenseRolls (hits h) (defense targetStats) (ap h) in
    let wounds := hits h - successfulSaves in
    rand_ret {| inRange := true; totalWounds := applyDeadly weaponProfile wounds |}.

(** [meleeResolution({ attacker, defender })]. *)
Definition meleeResolution (attacker defender : Unit) : Rand MeleeResult :=
  let attackerWeapon := meleeWeapon attacker in
  let defenderWeapon := meleeWeapon defender in
  let attackerEffectiveStats := with_quality (effectiveQuality attacker) attacker in
  let defenderEffectiveStats := with_quality (effectiveQuality defender) defender in
  draw attackerHits <- calculateHits attackerWeapon attackerEffectiveStats (numModels attacker) in
  draw defenderHits <- calculateHits defenderWeapon defenderEffectiveStats (numModels defender) in
  draw attackerSaves <- simulateDefenseRolls (hits defenderHits) (defense attacker) (ap defenderHits) in
  draw defenderSaves <- simulateDefenseRolls (hits attackerHits) (defense defender) (ap attackerHits) in
  let woundsToAttacker := hits defenderHits - attackerSaves in
  let woundsToDefender := hits attackerHits - defenderSaves in
  rand_ret {| totalWoundsToDefender := applyDeadly attackerWeapon woundsToDefender;
              totalWoundsToAttacker := applyDeadly defenderWeapon woundsToAttacker |}.

(** [unit.numModels < originalNumModels / 2], the division exact. *)
Definition belowHalf (n original : Z) : bool :=
  Qgtb (inject_Z original / 2) (inject_Z n).

(** [resolvePostCombatMorale(unit, originalNumModels)]. *)
Definition resolvePostCombatMorale {W} (unit : UnitOf W) (original : Z) : Rand Morale :=
  draw roll <- rollDie in
  let passedMorale := quality unit <=? roll in
  draw passedMorale <-
    (if negb passedMorale && includes "Fearless" (specialRules unit) then
       draw roll2 <- rollDie in rand_ret (4 <=? roll2)
     else rand_ret passedMorale) in
  rand_ret (if passedMorale then PASS
            else if belowHalf (numModels unit) original then RETREAT
            else SHAKEN).

End Resolver.

(** ** The decision procedure *)

Record Estimate := { expectedWoundsOnOpponent : Q; expectedWoundsOnUnit : Q }.

(** [estimateMeleeEffectiveness(unit, opponent)]. *)
Definition estimateMeleeEffectiveness (unit opponent : Unit) : Estimate :=
  let unitWeapon := meleeWeapon unit in
  let opponentWeapon := meleeWeapon opponent in
  let unitQuality := effectiveQuality unit in
  let opponentQuality := effectiveQuality opponent in
  let unitHitChance := getSuccessChance unitQuality in
  let opponentHitChance := getSuccessChance opponentQuality in
  let unitHits := (inject_Z (numModels unit) * inject_Z (Attacks unitWeapon) * unitHitChance)%Q in
  let opponentHits :=
    (inject_Z (numModels opponent) * inject_Z (Attacks opponentWeapon) * opponentHitChance)%Q in
  let unitWoundChance := (1 - getSuccessChance (defense opponent + AP unitWeapon))%Q in
  let opponentWoundChance := (1 - getSuccessChance (defense unit + AP opponentWeapon))%Q in
  {| expectedWoundsOnOpponent := (unitHits * unitWoundChance)%Q;
     expectedWoundsOnUnit := (opponentHits * opponentWoundChance)%Q |}.

(** [decideAction({ attacker, opponent, distanceToTarget })]. *)
Definition decideAction (attacker opponent : Unit) (distanceToTarget : Z) : Action :=
  if shaken attacker then idle
  else if distanceToTarget =? 0 then
    let e := estimateMeleeEffectiveness attacker opponent in
    if Qgtb (expectedWoundsOnUnit e) (expectedWoundsOnOpponent e) then advance else fight
  else
    let chargeRange := orDefault (chargeRange attacker) 12 in
    let advanceRange := orDefault (advanceRange attacker) 6 in
    let rangedWeapon := find (fun w => 0 <? Range w) (weapons attacker) in
    let canCharge := distanceToTarget <=? chargeRange in
    let canShootHold :=
      match rangedWeapon with
      | Some w => distanceToTarget <=? Range w
      | None => false
      end in
    let canShootAdvance :=
      match rangedWeapon with
      | Some w => distanceToTarget <=? Range w + advanceRange
      | None => false
      end in
    if canCharge then charge
    else if canShootHold then hold
    else if canShootAdvance then advance
    else rush.

(** The weapon a holding or advancing unit fires:
    [unit.weapons.find(w => w.Range > 0 && w.Range >= currentDistance)]. *)
Definition firedWeapon (unit : Unit) (distance : Z) : option Weapon :=
  find (fun w => (0 <? Range w) && (distance <=? Range w)) (weapons unit).

(** ** The store and the simulator's state *)

(** What one call of the simulator reads and writes: the objects of the
    heap, its local variables [currentDistance] and [log], and the
    cursor into the random samples. *)
Record Sim := {
  unitStore : gmap loc UnitObj;
  weaponStore : gmap loc Weapon;
  currentDistance : Z;
  log : list LogEntry;
  cursor : nat
}.

(** A computation over the state; [None] is a reference to no object. *)
Definition M (A : Type) : Type := Sim -> option (A * Sim).

#[global] Instance sim_ret : MRet M := fun A a s => Some (a, s).

#[global] Instance sim_bind : MBind M := fun A B f m s =>
  match m s with
  | Some (a, s') => f a s'
  | None => None
  end.

Definition with_unitStore (h : gmap loc UnitObj) (s : Sim) : Sim :=
  {| unitStore := h; weaponStore := weaponStore s;
     currentDistance := currentDistance s; log := log s; cursor := cursor s |}.

Definition with_weaponStore (h : gmap loc Weapon) (s : Sim) : Sim :=
  {| unitStore := unitStore s; weaponStore := h;
     currentDistance := currentDistance s; log := log s; cursor := cursor s |}.

Definition with_currentDistance (d : Z) (s : Sim) : Sim :=
  {| unitStore := unitStore s; weaponStore := weaponStore s;
     currentDistance := d; log := log s; cursor := cursor s |}.

Definition with_log (l : list LogEntry) (s : Sim) : Sim :=
  {| unitStore := unitStore s; weaponStore := weaponStore s;
     currentDistance := currentDistance s; log := l; cursor := cursor s |}.

Definition with_cursor (k : nat) (s : Sim) : Sim :=
  {| unitStore := unitStore s; weaponStore := weaponStore s;
     currentDistance := currentDistance s; log := log s; cursor := k |}.

(** Reading the fields of the unit object at [l]. *)
Definition readUnit (l : loc) : M UnitObj := fun s =>
  match unitStore s !! l with
  | Some u => Some (u, s)
  | None => None
  end.

(** An assignment to fields of the unit object at [l]. *)
Definition modifyUnit (l : loc) (f : UnitObj -> UnitObj) : M unit := fun s =>
  match unitStore s !! l with
  | Some u => Some (tt, with_unitStore (<[l := f u]> (unitStore s)) s)
  | None => None
  end.

Definition readWeapon (l : loc) : M Weapon := fun s =>
  match weaponStore s !! l with
  | Some w => Some (w, s)
  | None => None
  end.

(** A new unit object. *)
Definition allocUnit (u : UnitObj) : M loc := fun s =>
  let l := fresh (dom (unitStore s)) in
  Some (l, with_unitStore (<[l := u]> (unitStore s)) s).

(** A new weapon object. *)
Definition allocWeapon (w : Weapon) : M loc := fun s =>
  let l := fresh (dom (weaponStore s)) in
  Some (l, with_weaponStore (<[l := w]> (weaponStore s)) s).

(** The weapons of an array of references. *)
Fixpoint readWeapons (ls : list loc) : M (list Weapon) :=
  match ls with
  | [] => mret []
  | l :: ls' => w ← readWeapon l; ws ← readWeapons ls'; mret (w :: ws)
  end.

(** The unit at [l] with its weapons read out, as the resolver and the
    decision procedure (which only read) receive it. *)
Definition viewUnit (l : loc) : M Unit :=
  u ← readUnit l;
  ws ← readWeapons (weapons u);
  mret (with_weapons ws u).

Definition getDistance : M Z := fun s => Some (currentDistance s, s).

Definition setDistance (d : Z) : M unit := fun s => Some (tt, with_currentDistance d s).

(** [log.push(e)]. *)
Definition pushLog (e : LogEntry) : M unit := fun s => Some (tt, with_log (log s ++ [e]) s).

(** [const log = []]. *)
Definition newLog : M unit := fun s => Some (tt, with_log [] s).

Definition getLog : M (list LogEntry) := fun s => Some (log s, s).

(** Running a dice computation from the state's cursor. *)
Definition liftRand {A} (r : Rand A) : M A := fun s =>
  let '(a, k) := r (cursor s) in Some (a, with_cursor k s).

Record Result := {
  turnsElapsed : Z;
  finalDistance : Z;
  survivingA : Z;
  survivingB : Z;
  resultLog : list LogEntry
}.

(** ** The engagement *)

Section Engagement.

Variable rnd : nat -> Z.

(** The [switch (moraleResult)] of [handleMeleeRound]. *)
Definition applyMorale (loser : loc) (loserName : string) (moraleResult : Morale) : M unit :=
  match moraleResult with
  | PASS => pushLog (LogPassed loserName)
  | SHAKEN => modifyUnit loser (with_shaken true);; pushLog (LogShaken loserName)
  | RETREAT => pushLog (LogRetreats loserName);; modifyUnit loser (with_numModels 0)
  end.

(** The closure [handleMeleeRound(unit1, unit2)]. *)
Definition handleMeleeRound (unit1 unit2 : loc) : M unit :=
  u1 ← viewUnit unit1;
  u2 ← viewUnit unit2;
  meleeResult ← liftRand (meleeResolution rnd u1 u2);
  modifyUnit unit1 (with_hasFought true);;
  modifyUnit unit2 (with_hasFought true);;
  let killsOnUnit2 := totalWoundsToDefender meleeResult `div` orDefault (toughValue u2) 1 in
  let killsOnUnit1 := totalWoundsToAttacker meleeResult `div` orDefault (toughValue u1) 1 in
  modifyUnit unit2 (fun u => with_numModels (Z.max 0 (numModels u - killsOnUnit2)) u);;
  modifyUnit unit1 (fun u => with_numModels (Z.max 0 (numModels u - killsOnUnit1)) u);;
  pushLog (LogMeleeResult (name u1) killsOnUnit2 (name u2) killsOnUnit1);;
  let loser :=
    if totalWoundsToAttacker meleeResult <? totalWoundsToDefender meleeResult then Some unit2
    else if totalWoundsToDefender meleeResult <? totalWoundsToAttacker meleeResult then Some unit1
    else None in
  match loser with
  | Some l =>
      lu ← readUnit l;
      if 0 <? numModels lu then
        pushLog (LogLostCombat (name lu));;
        moraleResult ← liftRand (resolvePostCombatMorale rnd lu (originalNumModels lu));
        applyMorale l (name lu) moraleResult
      else mret tt
  | None => pushLog LogDraw
  end.

(** The movement of an [advance] in [unitActs], and the line it logs. *)
Definition advanceMove (initialDistance advanceRange : Z) : M ActionText :=
  if initialDistance =? 0 then
    d ← getDistance;
    setDistance (d + advanceRange);;
    mret (RetreatsAndShoots advanceRange)
  else
    d ← getDistance;
    setDistance (Z.max 0 (d - advanceRange));;
    mret (AdvancesAndShoots advanceRange).

(** The shot of a [hold] or [advance] in [unitActs]. *)
Definition shoot (u o : Unit) (opponent : loc) : M unit :=
  d ← getDistance;
  match firedWeapon u d with
  | Some rangedWeapon =>
      result ← liftRand (rangedAttack rnd rangedWeapon u (numModels u) o d);
      let kills := Z.min (numModels o) (totalWounds result `div` orDefault (toughValue o) 1) in
      modifyUnit opponent (fun x => with_numModels (numModels x - kills) x);;
      pushLog (LogKills (wname rangedWeapon) kills)
  | None => mret tt
  end.

(** The closure [unitActs(unit, opponent)]; the result is whether a
    charge occurred. *)
Definition unitActs (unit opponent : loc) : M bool :=
  initialDistance ← getDistance;
  u ← viewUnit unit;
  o ← viewUnit opponent;
  match decideAction u o initialDistance with
  | idle =>
      pushLog (LogIdles (name u));;
      modifyUnit unit (with_shaken false);;
      mret false
  | charge =>
      setDistance 0;;
      pushLog (LogCharges (name u) (name o));;
      handleMeleeRound unit opponent;;
      mret true
  | fight =>
      pushLog (LogFights (name u) (name o));;
      handleMeleeRound unit opponent;;
      mret false
  | hold =>
      pushLog (LogShoots (name u) HoldsAndShoots);;
      shoot u o opponent;;
      mret false
  | advance =>
      actionText ← advanceMove initialDistance (advanceRange u);
      pushLog (LogShoots (name u) actionText);;
      shoot u o opponent;;
      mret false
  | rush =>
      let rushDist := chargeRange u in
      d ← getDistance;
      setDistance (Z.max 0 (d - rushDist));;
      pushLog (LogRushes (name u) rushDist);;
      mret false
  end.

(** The two guarded calls of [unitActs] of one turn, [first] acting
    before [second]. *)
Definition actInOrder (first second : loc) : M unit :=
  f ← readUnit first;
  chargeOccurred ← (if 0 <? numModels f then unitActs first second else mret false);
  s ← readUnit second;
  if (0 <? numModels s) && negb chargeOccurred then unitActs second first;; mret tt
  else mret tt.

(** The body of the turn loop after its [break] test. *)
Definition runTurn (attacker defender : loc) (attackerFirst : bool) (turn : Z) : M unit :=
  pushLog (LogTurn turn);;
  modifyUnit attacker (with_hasFought false);;
  modifyUnit defender (with_hasFought false);;
  if attackerFirst then actInOrder attacker defender
  else actInOrder defender attacker.

(** [for (turn = 1; turn <= 4; turn++)], started at [turn] with [left]
    iterations admitted by the test [turn <= 4]; the result is [turn]
    when the loop is left. *)
Fixpoint turnLoop (left : nat) (attacker defender : loc) (attackerFirst : bool)
    (turn : Z) : M Z :=
  match left with
  | O => mret turn
  | S left' =>
      a ← readUnit attacker;
      d ← readUnit defender;
      if (numModels a <=? 0) || (numModels d <=? 0) then mret turn
      else
        runTurn attacker defender attackerFirst turn;;
        turnLoop left' attacker defender attackerFirst (turn + 1)
  end.

(** [unit.weapons.map((w) => ({ ...w }))]. *)
Fixpoint cloneWeapons (ls : list loc) : M (list loc) :=
  match ls with
  | [] => mret []
  | l :: ls' =>
      w ← readWeapon l;
      l' ← allocWeapon w;
      rest ← cloneWeapons ls';
      mret (l' :: rest)
  end.

(** The closure [cloneUnit(unit)]. *)
Definition cloneUnit (unit : loc) : M loc :=
  u ← readUnit unit;
  ws ← cloneWeapons (weapons u);
  allocUnit (with_hasFought false (with_shaken false
    (with_originalNumModels (numModels u) (with_weapons ws u)))).

(** [isFast ? f : isSlow ? s : n]. *)
Definition moveAllowance {W} (u : UnitOf W) (f s n : Z) : Z :=
  if includes "Fast" (specialRules u) then f
  else if includes "Slow" (specialRules u) then s
  else n.

(** The assignments of [advanceRange] and [chargeRange] to a clone. *)
Definition setRanges (l : loc) : M unit :=
  u ← readUnit l;
  modifyUnit l (with_advanceRange (moveAllowance u 8 4 6));;
  modifyUnit l (with_chargeRange (moveAllowance u 16 8 12)).

(** [simulateRangedExchangeUntilMelee({ unitA, unitB, startingDistance =
    24, attackerFirst = true })]. *)
Definition simulateRangedExchangeUntilMelee (unitA unitB : loc)
    (startingDistance : option Z) (attackerFirst : option bool) : M Result :=
  let startingDistance := default 24 startingDistance in
  let attackerFirst := default true attackerFirst in
  attacker ← cloneUnit unitA;
  defender ← cloneUnit unitB;
  setRanges attacker;;
  setRanges defender;;
  setDistance startingDistance;;
  newLog;;
  turn ← turnLoop 4 attacker defender attackerFirst 1;
  a ← readUnit attacker;
  d ← readUnit defender;
  dist ← getDistance;
  lg ← getLog;
  mret {| turnsElapsed := turn - 1; finalDistance := dist;
          survivingA := numModels a; survivingB := numModels d;
          resultLog := lg |}.

End Engagement.

(** * Properties *)

(** ** The probability primitive *)

Lemma getSuccessChance_high t : 6 < t → getSuccessChance t = 1 # 6.
Proof.
  intros Ht. unfold getSuccessChance.
  destruct (Z.ltb_spec 6 t); [done | lia].
Qed.

Lemma getSuccessChance_mid t :
  2 <= t <= 6 → getSuccessChance t = (inject_Z (6 - t + 1) / 6)%Q.
Proof.
  intros Ht. unfold getSuccessChance.
  destruct (Z.ltb_spec 6 t); [lia |].
  destruct (Z.ltb_spec t 2); [lia | done].
Qed.

Lemma getSuccessChance_low t : t <= 2 → getSuccessChance t = 5 # 6.
Proof.
  intros Ht. unfold getSuccessChance.
  destruct (Z.ltb_spec 6 t); [lia |].
  destruct (Z.ltb_spec t 2); [done |].
  by replace t with 2 by lia.
Qed.

(** The chance as one fraction over six. *)
Lemma getSuccessChance_sixths t :
  ∃ n, 1 <= n <= 5 ∧ (getSuccessChance t == n # 6)%Q
       ∧ n = (if 6 <? t then 1 else if t <? 2 then 5 else 7 - t).
Proof.
  unfold getSuccessChance.
  destruct (Z.ltb_spec 6 t).
  - exists 1. split; [lia |]. split; reflexivity.
  - destruct (Z.ltb_spec t 2).
    + exists 5. split; [lia |]. split; reflexivity.
    + exists (7 - t). split; [lia |]. split; [| done].
      unfold Qeq, Qdiv, Qmult, Qinv, inject_Z; simpl. lia.
Qed.

Lemma getSuccessChance_antitone t t' :
  t <= t' → (getSuccessChance t' <= getSuccessChance t)%Q.
Proof.
  intros Hle.
  destruct (getSuccessChance_sixths t) as (n & Hn & -> & En).
  destruct (getSuccessChance_sixths t') as (n' & Hn' & -> & En').
  unfold Qle; simpl.
  repeat match goal with
  | H : context [if ?a <? ?b then _ else _] |- _ => destruct (Z.ltb_spec a b)
  end; lia.
Qed.

(** C8. [getSuccessChance] is 5/6 for every target at most 2, is
    (6 - target + 1)/6 for a target from 2 to 6, is 1/6 for every
    target above 6; it does not increase with the target on [2,6] and
    lies between 1/6 and 5/6, hence between 0 and 1, for every target. *)
Theorem getSuccessChance_spec :
  (∀ t, t <= 2 → (getSuccessChance t == 5 # 6)%Q)
  ∧ (∀ t, 2 <= t <= 6 → (getSuccessChance t == inject_Z (6 - t + 1) / 6)%Q)
  ∧ (∀ t, 6 < t → (getSuccessChance t == 1 # 6)%Q)
  ∧ (∀ t t', 2 <= t → t <= t' → t' <= 6 →
       (getSuccessChance t' <= getSuccessChance t)%Q)
  ∧ (∀ t, (1 # 6 <= getSuccessChance t)%Q ∧ (getSuccessChance t <= 5 # 6)%Q
          ∧ (0 <= getSuccessChance t)%Q ∧ (getSuccessChance t <= 1)%Q).
Proof.
  split; [| split; [| split; [| split]]].
  - intros t Ht. by rewrite getSuccessChance_low.
  - intros t Ht. by rewrite getSuccessChance_mid.
  - intros t Ht. by rewrite getSuccessChance_high.
  - intros t t' _ Hle _. by apply getSuccessChance_antitone.
  - intros t. destruct (getSuccessChance_sixths t) as (n & Hn & -> & _).
    unfold Qle; simpl. lia.
Qed.

(** The clauses of [getSuccessChance_spec] at the targets 1, 4, 9 and
    at the pair 3, 5. *)
Lemma getSuccessChance_spec_witness :
  (getSuccessChance 1 == 5 # 6)%Q
  ∧ (getSuccessChance 4 == inject_Z (6 - 4 + 1) / 6)%Q
  ∧ (getSuccessChance 9 == 1 # 6)%Q
  ∧ (getSuccessChance 5 <= getSuccessChance 3)%Q.
Proof.
  destruct getSuccessChance_spec as (H1 & H2 & H3 & H4 & _).
  split; [apply H1; lia |].
  split; [apply H2; lia |].
  split; [apply H3; lia |].
  apply H4; lia.
Defined.

(** ** The weapon a holding or advancing unit fires *)

(** [w] is a ranged weapon that reaches distance [d]. *)
Definition reaches (d : Z) (w : Weapon) : Prop := 0 < Range w ∧ d <= Range w.

Lemma reaches_test d w :
  (0 <? Range w) && (d <=? Range w) = true ↔ reaches d w.
Proof. unfold reaches. rewrite andb_true_iff, Z.ltb_lt, Z.leb_le. done. Qed.

Lemma find_first {A} (p : A → bool) (l : list A) :
  match find p l with
  | Some x => ∃ i, l !! i = Some x ∧ p x = true
                ∧ ∀ j y, (j < i)%nat → l !! j = Some y → p y = false
  | None => ∀ y, y ∈ l → p y = false
  end.
Proof.
  induction l as [| a l IH]; simpl.
  - intros y Hy. by apply elem_of_nil in Hy.
  - destruct (p a) eqn:Ea.
    + exists 0%nat. split; [done |]. split; [done |]. intros j y Hj. lia.
    + destruct (find p l) as [x |].
      * destruct IH as (i & Hi & Hx & Hbefore).
        exists (S i). split; [done |]. split; [done |].
        intros [| j] y Hj Hy; simpl in Hy.
        -- by inversion Hy; subst.
        -- apply (Hbefore j); [lia | done].
      * intros y Hy. apply elem_of_cons in Hy as [-> | Hy]; [done | by apply IH].
Qed.

Definition twoGuns : Unit :=
  {| name := "Scouts"; numModels := 3; quality := 4; defense := 5; points := 60;
     toughValue := 0; Modifier := 0; specialRules := [];
     weapons :=
       [ {| wname := "Pistol"; count := 3; Range := 12; Attacks := 1; AP := 0;
            Furious := false; Predator := false; Deadly := 0 |};
         {| wname := "Rifle"; count := 3; Range := 24; Attacks := 1; AP := 0;
            Furious := false; Predator := false; Deadly := 0 |} ];
     originalNumModels := 3; shaken := false; hasFoughtInMeleeThisTurn := false;
     advanceRange := 6; chargeRange := 12 |}.

(** C1, as stated, fails: a unit carrying a pistol of range 12 listed
    before a rifle of range 24 fires the pistol at distance 6, though
    the rifle reaches too and has the longer range. *)
Lemma firedWeapon_not_longest :
  ∃ w w', firedWeapon twoGuns 6 = Some w ∧ w' ∈ weapons twoGuns
          ∧ reaches 6 w' ∧ Range w < Range w'.
Proof.
  eexists _, _. split; [reflexivity |]. split.
  - apply list_elem_of_lookup_2 with 1%nat. reflexivity.
  - unfold reaches; simpl. lia.
Qed.

(** The weapon [firedWeapon] selects is the first weapon, in the order
    of the unit's list, with range above 0 and at least the distance;
    there is one whenever some ranged weapon reaches. *)
Lemma firedWeapon_first (u : Unit) (d : Z) :
  match firedWeapon u d with
  | Some w =>
      ∃ i, weapons u !! i = Some w ∧ reaches d w
           ∧ ∀ j w', (j < i)%nat → weapons u !! j = Some w' → ¬ reaches d w'
  | None => ∀ w', w' ∈ weapons u → ¬ reaches d w'
  end.
Proof.
  unfold firedWeapon.
  pose proof (find_first (fun w => (0 <? Range w) && (d <=? Range w)) (weapons u)) as H.
  destruct (find _ _) as [w |].
  - destruct H as (i & Hi & Hw & Hbefore). exists i.
    split; [done |]. split; [by apply reaches_test |].
    intros j w' Hj Hw' Hr. apply reaches_test in Hr.
    rewrite (Hbefore j w' Hj Hw') in Hr. done.
  - intros w' Hw' Hr. apply reaches_test in Hr. rewrite (H w' Hw') in Hr. done.
Qed.

(** ** The decision away from melee *)

Lemma decideAction_apart (u o : Unit) (d : Z) :
  shaken u = false → d ≠ 0 →
  decideAction u o d =
    if d <=? orDefault (chargeRange u) 12 then charge
    else match find (fun w => 0 <? Range w) (weapons u) with
         | Some w =>
             if d <=? Range w then hold
             else if d <=? Range w + orDefault (advanceRange u) 6 then advance
             else rush
         | None => rush
         end.
Proof.
  intros Hs Hd. unfold decideAction. rewrite Hs.
  destruct (Z.eqb_spec d 0); [done |].
  destruct (d <=? orDefault (chargeRange u) 12); [done |].
  by destruct (find _ _).
Qed.

Definition shortThenLong : Unit :=
  {| name := "Rangers"; numModels := 5; quality := 4; defense := 5; points := 90;
     toughValue := 0; Modifier := 0; specialRules := [];
     weapons :=
       [ {| wname := "Pistol"; count := 5; Range := 6; Attacks := 1; AP := 0;
            Furious := false; Predator := false; Deadly := 0 |};
         {| wname := "Longrifle"; count := 5; Range := 30; Attacks := 1; AP := 0;
            Furious := false; Predator := false; Deadly := 0 |} ];
     originalNumModels := 5; shaken := false; hasFoughtInMeleeThisTurn := false;
     advanceRange := 6; chargeRange := 12 |}.

(** C2 at the input where the code departs from it: at distance 20 a
    unit of charge range 12 whose list holds a pistol of range 6 before
    a rifle of range 30 rushes, although the rifle covers the distance
    and is the weapon the shooting code of [unitActs] would fire
    there. *)
Theorem decideAction_tests_first_ranged_only (o : Unit) :
  decideAction shortThenLong o 20 = rush
  ∧ (∃ w, w ∈ weapons shortThenLong ∧ reaches 20 w
          ∧ firedWeapon shortThenLong 20 = Some w).
Proof.
  split; [reflexivity |].
  eexists. split; [| split; [| reflexivity]].
  - apply list_elem_of_lookup_2 with 1%nat. reflexivity.
  - unfold reaches; simpl. lia.
Qed.

(** ** Dice rolls *)

Section DiceFacts.

Variable rnd : nat → Z.

Lemma rollDie_range k : 1 <= (rollDie rnd k).1 <= 6.
Proof.
  unfold rollDie; simpl.
  pose proof (Z.mod_pos_bound (rnd k) 6). lia.
Qed.

Lemma rollDie_cursor k : (rollDie rnd k).2 = S k.
Proof. done. Qed.

Lemma hitRollStep_bounds target acc roll :
  let r := hitRollStep target acc roll in
  successes acc <= successes r <= successes acc + 1
  ∧ sixes acc <= sixes r
  ∧ sixes r - sixes acc <= successes r - successes acc.
Proof.
  unfold hitRollStep.
  repeat match goal with |- context [if ?b then _ else _] => destruct b end;
    simpl; lia.
Qed.

(** Against a target of 6 or more a roll adds a success exactly when it
    is a natural six. *)
Lemma hitRollStep_six_only target acc roll :
  6 <= target → 1 <= roll <= 6 →
  let r := hitRollStep target acc roll in
  successes r - successes acc = (if roll =? 6 then 1 else 0)
  ∧ sixes r - sixes acc = (if roll =? 6 then 1 else 0).
Proof.
  intros Ht Hr. unfold hitRollStep.
  destruct (Z.eqb_spec roll 1); [destruct (Z.eqb_spec roll 6); simpl; lia |].
  destruct (Z.eqb_spec roll 6); [simpl; lia |].
  destruct (Z.leb_spec target roll); simpl; lia.
Qed.

Lemma hitRollLoop_cursor n target acc k :
  (hitRollLoop rnd n target acc k).2 = (n + k)%nat.
Proof.
  revert acc k. induction n as [| n IH]; intros acc k; simpl; [done |].
  unfold rand_bind; simpl. rewrite IH. lia.
Qed.

Lemma hitRollLoop_bounds n target acc k :
  let r := (hitRollLoop rnd n target acc k).1 in
  successes acc <= successes r <= successes acc + Z.of_nat n
  ∧ sixes acc <= sixes r
  ∧ sixes r - sixes acc <= successes r - successes acc.
Proof.
  revert acc k. induction n as [| n IH]; intros acc k; simpl; [lia |].
  unfold rand_bind; simpl.
  pose proof (hitRollStep_bounds target acc (rnd k mod 6 + 1)) as Hs.
  pose proof (IH (hitRollStep target acc (rnd k mod 6 + 1)) (S k)) as Hn.
  simpl in Hs, Hn. lia.
Qed.

Lemma hitRollLoop_six_only n target acc k :
  6 <= target →
  let r := (hitRollLoop rnd n target acc k).1 in
  successes r - successes acc = sixes r - sixes acc.
Proof.
  intros Ht. revert acc k. induction n as [| n IH]; intros acc k; simpl; [lia |].
  unfold rand_bind; simpl.
  pose proof (rollDie_range k) as Hr; simpl in Hr.
  pose proof (hitRollStep_six_only target acc _ Ht Hr) as Hs.
  pose proof (IH (hitRollStep target acc (rnd k mod 6 + 1)) (S k)) as Hn.
  simpl in Hs, Hn. lia.
Qed.

Lemma simulateHitRolls_bounds numDice q m k :
  let r := (simulateHitRolls rnd numDice q m k).1 in
  0 <= sixes r <= successes r ∧ successes r <= Z.max 0 numDice.
Proof.
  unfold simulateHitRolls.
  pose proof (hitRollLoop_bounds (Z.to_nat numDice) (q - m)
                {| successes := 0; sixes := 0 |} k) as H.
  simpl in H. simpl. lia.
Qed.

Lemma defenseRollStep_bounds target acc roll :
  acc <= defenseRollStep target acc roll <= acc + 1.
Proof.
  unfold defenseRollStep.
  repeat match goal with |- context [if ?b then _ else _] => destruct b end; lia.
Qed.

Lemma defenseRollLoop_cursor n target acc k :
  (defenseRollLoop rnd n target acc k).2 = (n + k)%nat.
Proof.
  revert acc k. induction n as [| n IH]; intros acc k; simpl; [done |].
  unfold rand_bind; simpl. rewrite IH. lia.
Qed.

Lemma defenseRollLoop_bounds n target acc k :
  acc <= (defenseRollLoop rnd n target acc k).1 <= acc + Z.of_nat n.
Proof.
  revert acc k. induction n as [| n IH]; intros acc k; simpl; [lia |].
  unfold rand_bind; simpl.
  pose proof (defenseRollStep_bounds target acc (rnd k mod 6 + 1)).
  pose proof (IH (defenseRollStep target acc (rnd k mod 6 + 1)) (S k)). lia.
Qed.

(** Saves never exceed the dice rolled. *)
Lemma simulateDefenseRolls_bounds numDice d a k :
  0 <= (simulateDefenseRolls rnd numDice d a k).1 <= Z.max 0 numDice.
Proof.
  unfold simulateDefenseRolls.
  pose proof (defenseRollLoop_bounds (Z.to_nat numDice) (d + a) 0 k). lia.
Qed.

Lemma calculateHits_nonneg {W} (w : Weapon) (u : UnitOf W) n k :
  0 <= hits (calculateHits rnd w u n k).1.
Proof.
  unfold calculateHits, rand_bind.
  destruct (simulateHitRolls rnd (n * Attacks w) (quality u) (Modifier u) k)
    as [r k1] eqn:E1.
  pose proof (simulateHitRolls_bounds (n * Attacks w) (quality u) (Modifier u) k) as H1.
  rewrite E1 in H1; simpl in H1.
  destruct (Predator w && (0 <? sixes r)).
  - destruct (simulateHitRolls rnd (sixes r) (quality u) (Modifier u) k1)
      as [r2 k2] eqn:E2.
    pose proof (simulateHitRolls_bounds (sixes r) (quality u) (Modifier u) k1) as H2.
    rewrite E2 in H2; simpl in H2. simpl.
    destruct (Furious w); lia.
  - simpl. destruct (Furious w); lia.
Qed.

Lemma applyDeadly_nonneg w n : 0 <= Deadly w → 0 <= n → 0 <= applyDeadly w n.
Proof. intros Hd Hn. unfold applyDeadly. destruct (Deadly w =? 0); nia. Qed.

Lemma rangedAttack_nonneg {W} (w : Weapon) (u t : UnitOf W) n d k :
  0 <= Deadly w → 0 <= totalWounds (rangedAttack rnd w u n t d k).1.
Proof.
  intros Hd. unfold rangedAttack.
  destruct (Range w <? d); [done |].
  unfold rand_bind.
  pose proof (calculateHits_nonneg w u n k) as Hh.
  destruct (calculateHits rnd w u n k) as [h k1]; simpl in Hh.
  pose proof (simulateDefenseRolls_bounds (hits h) (defense t) (ap h) k1) as Hs.
  destruct (simulateDefenseRolls rnd (hits h) (defense t) (ap h) k1) as [sv k2].
  simpl in *. apply applyDeadly_nonneg; lia.
Qed.

Lemma meleeResolution_nonneg (a d : Unit) k :
  0 <= Deadly (meleeWeapon a) → 0 <= Deadly (meleeWeapon d) →
  let r := (meleeResolution rnd a d k).1 in
  0 <= totalWoundsToDefender r ∧ 0 <= totalWoundsToAttacker r.
Proof.
  intros Ha Hd. unfold meleeResolution, rand_bind.
  pose proof (calculateHits_nonneg (meleeWeapon a)
                (with_quality (effectiveQuality a) a) (numModels a) k) as H1.
  destruct (calculateHits rnd (meleeWeapon a) _ (numModels a) k) as [h1 k1].
  pose proof (calculateHits_nonneg (meleeWeapon d)
                (with_quality (effectiveQuality d) d) (numModels d) k1) as H2.
  destruct (calculateHits rnd (meleeWeapon d) _ (numModels d) k1) as [h2 k2].
  pose proof (simulateDefenseRolls_bounds (hits h2) (defense a) (ap h2) k2) as H3.
  destruct (simulateDefenseRolls rnd (hits h2) (defense a) (ap h2) k2) as [s1 k3].
  pose proof (simulateDefenseRolls_bounds (hits h1) (defense d) (ap h1) k3) as H4.
  destruct (simulateDefenseRolls rnd (hits h1) (defense d) (ap h1) k3) as [s2 k4].
  simpl in *. split; apply applyDeadly_nonneg; lia.
Qed.

End DiceFacts.

(** ** Fatigue *)

Definition tiredVeterans : Unit :=
  {| name := "Veterans"; numModels := 4; quality := 3; defense := 4; points := 120;
     toughValue := 0; Modifier := 0; specialRules := [];
     weapons :=
       [ {| wname := "Sword"; count := 4; Range := 0; Attacks := 2; AP := 1;
            Furious := false; Predator := false; Deadly := 0 |} ];
     originalNumModels := 4; shaken := false; hasFoughtInMeleeThisTurn := true;
     advanceRange := 6; chargeRange := 12 |}.

(** C3, as stated, fails: the quality substituted for a side that has
    already fought this turn is 6, not 7. *)
Lemma fatigued_quality_not_7 :
  hasFoughtInMeleeThisTurn tiredVeterans = true
  ∧ effectiveQuality tiredVeterans = 6
  ∧ effectiveQuality tiredVeterans ≠ 7.
Proof. split; [done |]. split; done. Qed.

(** A unit that has not fought and whose own quality is the effective
    quality of [u]. *)
Definition atEffectiveQuality (u : Unit) : Unit :=
  with_hasFought false (with_quality (effectiveQuality u) u).

(** C3, amended. A side that has already fought in melee this turn has
    its effective quality forced to 6, a side that has not uses its own
    quality: the round is resolved as between unfatigued units of these
    qualities. Against quality 6 (and no positive modifier) every hit is
    a natural six. The estimator of the decision procedure makes the
    same substitution, so a fatigued side's hit chance is 1/6. *)
Theorem fatigue_spec (rnd : nat → Z) (a d : Unit) (k : nat) :
  effectiveQuality a = (if hasFoughtInMeleeThisTurn a then 6 else quality a)
  ∧ meleeResolution rnd a d k
    = meleeResolution rnd (atEffectiveQuality a) (atEffectiveQuality d) k
  ∧ (∀ numDice m, m <= 0 →
       let r := (simulateHitRolls rnd numDice 6 m k).1 in successes r = sixes r)
  ∧ estimateMeleeEffectiveness a d
    = estimateMeleeEffectiveness (atEffectiveQuality a) (atEffectiveQuality d)
  ∧ (hasFoughtInMeleeThisTurn a = true →
     getSuccessChance (effectiveQuality a) = 1 # 6).
Proof.
  split; [done |]. split; [reflexivity |]. split; [| split; [reflexivity |]].
  - intros numDice m Hm. unfold simulateHitRolls.
    pose proof (hitRollLoop_six_only rnd (Z.to_nat numDice) (6 - m)
                  {| successes := 0; sixes := 0 |} k) as H.
    simpl in H. simpl. lia.
  - intros Hf. unfold effectiveQuality. by rewrite Hf.
Qed.

(** [fatigue_spec] at a fatigued unit facing itself, four dice. *)
Lemma fatigue_spec_witness :
  successes (simulateHitRolls (fun k => Z.of_nat k) 4 6 0 0%nat).1
  = sixes (simulateHitRolls (fun k => Z.of_nat k) 4 6 0 0%nat).1
  ∧ getSuccessChance (effectiveQuality tiredVeterans) = 1 # 6.
Proof.
  destruct (fatigue_spec (fun k => Z.of_nat k) tiredVeterans tiredVeterans 0%nat)
    as (_ & _ & H3 & _ & H5).
  split; [apply (H3 4 0); lia | apply H5; reflexivity].
Defined.

(** ** Wounds *)

(** The factor of a weapon's Deadly tag: N for Deadly(N), 1 without. *)
Definition deadlyMultiplier (w : Weapon) : Z :=
  if Deadly w =? 0 then 1 else Deadly w.

Lemma applyDeadly_multiplier w n : applyDeadly w n = n * deadlyMultiplier w.
Proof. unfold applyDeadly, deadlyMultiplier. destruct (Deadly w =? 0); lia. Qed.

(** C9. A ranged attack in range yields hits minus successful saves,
    times N when the weapon carries Deadly(N); a melee round yields for
    each side its hits minus the other side's saves, times the Deadly
    factor of its own weapon. A Deadly(2) weapon with 3 net wounds
    yields 6 wounds, the number the kill conversion then divides. *)
Theorem wounds_spec (rnd : nat → Z) :
  (∀ (w : Weapon) (u t : Unit) (n d : Z) (k : nat),
     d <= Range w →
     let hk := calculateHits rnd w u n k in
     let sk := simulateDefenseRolls rnd (hits hk.1) (defense t) (ap hk.1) hk.2 in
     let net := hits hk.1 - sk.1 in
     rangedAttack rnd w u n t d k
     = ({| inRange := true; totalWounds := net * deadlyMultiplier w |}, sk.2)
     ∧ (Deadly w = 0 → totalWounds (rangedAttack rnd w u n t d k).1 = net)
     ∧ (Deadly w = 2 → net = 3 → totalWounds (rangedAttack rnd w u n t d k).1 = 6))
  ∧ (∀ (a d : Unit) (k : nat),
       let ah := calculateHits rnd (meleeWeapon a)
                   (with_quality (effectiveQuality a) a) (numModels a) k in
       let dh := calculateHits rnd (meleeWeapon d)
                   (with_quality (effectiveQuality d) d) (numModels d) ah.2 in
       let asv := simulateDefenseRolls rnd (hits dh.1) (defense a) (ap dh.1) dh.2 in
       let dsv := simulateDefenseRolls rnd (hits ah.1) (defense d) (ap ah.1) asv.2 in
       meleeResolution rnd a d k
       = ({| totalWoundsToDefender :=
               (hits ah.1 - dsv.1) * deadlyMultiplier (meleeWeapon a);
             totalWoundsToAttacker :=
               (hits dh.1 - asv.1) * deadlyMultiplier (meleeWeapon d) |}, dsv.2)).
Proof.
  split.
  - intros w u t n d k Hd hk sk net.
    assert (rangedAttack rnd w u n t d k
            = ({| inRange := true; totalWounds := net * deadlyMultiplier w |}, sk.2)) as E.
    { unfold rangedAttack, rand_bind, rand_ret.
      destruct (Z.ltb_spec (Range w) d); [lia |].
      subst net sk hk.
      destruct (calculateHits rnd w u n k) as [h k1]; simpl.
      destruct (simulateDefenseRolls rnd (hits h) (defense t) (ap h) k1) as [sv k2]; simpl.
      by rewrite applyDeadly_multiplier. }
    split; [done |]. rewrite E; simpl. unfold deadlyMultiplier.
    split; [intros -> | intros -> ->]; simpl; lia.
  - intros a d k ah dh asv dsv. subst dsv asv dh ah.
    unfold meleeResolution, rand_bind, rand_ret.
    destruct (calculateHits rnd (meleeWeapon a) _ (numModels a) k) as [h1 k1]; simpl.
    destruct (calculateHits rnd (meleeWeapon d) _ (numModels d) k1) as [h2 k2]; simpl.
    destruct (simulateDefenseRolls rnd (hits h2) (defense a) (ap h2) k2) as [s1 k3]; simpl.
    destruct (simulateDefenseRolls rnd (hits h1) (defense d) (ap h1) k3) as [s2 k4]; simpl.
    by rewrite !applyDeadly_multiplier.
Qed.

Definition lance : Weapon :=
  {| wname := "Lance"; count := 3; Range := 18; Attacks := 1; AP := 0;
     Furious := false; Predator := false; Deadly := 2 |}.

(** Three dice that hit, then three saves that fail. *)
Definition hitsThenFails (k : nat) : Z := if (k <? 3)%nat then 5 else 0.

(** [wounds_spec] at a Deadly(2) lance fired by three models at
    distance 12: three hits, no save, six wounds. *)
Lemma wounds_spec_witness :
  12 <= Range lance
  ∧ Deadly lance = 2
  ∧ totalWounds
      (rangedAttack hitsThenFails lance (with_numModels 3 tiredVeterans) 3
         tiredVeterans 12 0%nat).1 = 6.
Proof.
  split; [simpl; lia |]. split; [reflexivity |].
  destruct (wounds_spec hitsThenFails) as [H _].
  destruct (H lance (with_numModels 3 tiredVeterans) tiredVeterans 3 12 0%nat)
    as (_ & _ & H6); [simpl; lia |].
  apply H6; reflexivity.
Defined.

(** ** Morale *)

Lemma belowHalf_lt n original :
  belowHalf n original = true ↔ (inject_Z n < inject_Z original / 2)%Q.
Proof.
  unfold belowHalf, Qgtb. rewrite negb_true_iff.
  split.
  - intros H. apply Qnot_le_lt. intros Hle.
    apply Qle_bool_iff in Hle. congruence.
  - intros H. destruct (Qle_bool _ _) eqn:E; [| done].
    apply Qle_bool_iff in E. by apply Qlt_not_le in H.
Qed.

Lemma half_lt_int n original :
  (inject_Z n < inject_Z original / 2)%Q ↔ 2 * n < original.
Proof. unfold Qlt, Qdiv, Qmult, Qinv, inject_Z; simpl. lia. Qed.

Lemma half_le_int n original :
  (inject_Z original / 2 <= inject_Z n)%Q ↔ original <= 2 * n.
Proof. unfold Qle, Qdiv, Qmult, Qinv, inject_Z; simpl. lia. Qed.

Lemma belowHalf_int n original : belowHalf n original = (2 * n <? original).
Proof.
  destruct (Z.ltb_spec (2 * n) original) as [H | H].
  - apply belowHalf_lt, half_lt_int. done.
  - destruct (belowHalf n original) eqn:E; [| done].
    apply belowHalf_lt, half_lt_int in E. lia.
Qed.

(** C5. The morale test rolls one die and passes iff the roll is at
    least the unit's quality, a natural 1 or 6 having no special
    meaning; a failed roll of a Fearless unit is followed by exactly
    one more roll, which passes iff it is at least 4. A unit that did
    not pass is SHAKEN when its models are at least half the original
    number and RETREATs when they are fewer. Applying the outcome
    leaves the unit as it is on PASS, sets its [shaken] flag on SHAKEN
    and sets its [numModels] to 0 on RETREAT. *)
Theorem morale_spec (rnd : nat → Z) (u : UnitObj) (original : Z) (k : nat) :
  let roll1 := (rollDie rnd k).1 in
  let roll2 := (rollDie rnd (S k)).1 in
  let retry := negb (quality u <=? roll1) && includes "Fearless" (specialRules u) in
  let passed := if retry then 4 <=? roll2 else quality u <=? roll1 in
  let mk := resolvePostCombatMorale rnd u original k in
  mk.2 = (if retry then S (S k) else S k)
  ∧ (mk.1 = PASS ↔ passed = true)
  ∧ (mk.1 = SHAKEN ↔
       passed = false ∧ (inject_Z original / 2 <= inject_Z (numModels u))%Q)
  ∧ (mk.1 = RETREAT ↔
       passed = false ∧ (inject_Z (numModels u) < inject_Z original / 2)%Q)
  ∧ (∀ (l : loc) (s : Sim), unitStore s !! l = Some u →
       ∃ s', applyMorale l (name u) mk.1 s = Some (tt, s')
             ∧ weaponStore s' = weaponStore s
             ∧ currentDistance s' = currentDistance s
             ∧ unitStore s' =
                 match mk.1 with
                 | PASS => unitStore s
                 | SHAKEN => <[l := with_shaken true u]> (unitStore s)
                 | RETREAT => <[l := with_numModels 0 u]> (unitStore s)
                 end).
Proof.
  intros roll1 roll2 retry passed mk.
  assert (mk = (if passed then PASS
                else if 2 * numModels u <? original then RETREAT else SHAKEN,
                if retry then S (S k) else S k)) as E.
  { subst mk passed retry roll1 roll2.
    unfold resolvePostCombatMorale, rand_bind, rand_ret; simpl.
    rewrite belowHalf_int.
    destruct (negb _ && _); reflexivity. }
  rewrite E; simpl.
  split; [done |].
  rewrite half_le_int, half_lt_int.
  split; [| split; [| split]].
  - destruct passed; [done |]. destruct (_ <? _); split; done.
  - destruct passed; destruct (Z.ltb_spec (2 * numModels u) original);
      intuition (try discriminate; try lia).
  - destruct passed; destruct (Z.ltb_spec (2 * numModels u) original);
      intuition (try discriminate; try lia).
  - intros l s Hl.
    destruct (if passed then PASS else _); unfold applyMorale;
      unfold mbind, sim_bind, pushLog, modifyUnit; simpl; rewrite ?Hl;
      eexists; (split; [reflexivity |]); done.
Qed.

Definition zealots : UnitObj :=
  {| name := "Zealots"; numModels := 2; quality := 5; defense := 4; points := 80;
     toughValue := 0; Modifier := 0; specialRules := ["Fearless"];
     weapons := []; originalNumModels := 6; shaken := false;
     hasFoughtInMeleeThisTurn := true; advanceRange := 6; chargeRange := 12 |}.

Definition zealotsAlone : Sim :=
  {| unitStore := {[ 1%positive := zealots ]}; weaponStore := ∅;
     currentDistance := 0; log := []; cursor := 0 |}.

(** [morale_spec] at a Fearless unit of quality 5 with 2 of 6 models
    that rolls 1 and then 1: two dice, and the unit retreats. *)
Lemma morale_spec_witness :
  unitStore zealotsAlone !! 1%positive = Some zealots
  ∧ resolvePostCombatMorale (fun _ => 0) zealots 6 0%nat = (RETREAT, 2%nat)
  ∧ ∃ s', applyMorale 1%positive (name zealots) RETREAT zealotsAlone = Some (tt, s')
          ∧ unitStore s' = <[1%positive := with_numModels 0 zealots]> (unitStore zealotsAlone).
Proof.
  destruct (morale_spec (fun _ => 0) zealots 6 0%nat) as (H1 & _ & _ & _ & H5).
  split; [reflexivity |]. split; [reflexivity |].
  destruct (H5 1%positive zealotsAlone) as (s' & Hs' & _ & _ & Hu); [reflexivity |].
  exists s'. split; [exact Hs' | exact Hu].
Defined.

(** ** The two units of an engagement, seen apart from the store

    The loop only ever touches the two clones. [Duel] is the part of
    the state they make up, from the point of view of a call
    [unitActs(unit, opponent)]; [embed] puts it back into a store. The
    functions on [Duel] below describe what the closures of the
    simulator do to it, and the [_run] lemmas show that they do. *)

Record Duel := {
  unitD : UnitObj;
  unitArms : list Weapon;
  oppD : UnitObj;
  oppArms : list Weapon;
  distanceD : Z;
  logD : list LogEntry;
  cursorD : nat
}.

(** Where the two units lie, and everything else in the store. *)
Record Ground := {
  others : gmap loc UnitObj;
  armory : gmap loc Weapon;
  unitLoc : loc;
  oppLoc : loc
}.

Definition embed (g : Ground) (x : Duel) : Sim :=
  {| unitStore := <[unitLoc g := unitD x]> (<[oppLoc g := oppD x]> (others g));
     weaponStore := armory g;
     currentDistance := distanceD x;
     log := logD x;
     cursor := cursorD x |}.

Fixpoint lookupWeapons (h : gmap loc Weapon) (ls : list loc) : option (list Weapon) :=
  match ls with
  | [] => Some []
  | l :: ls' =>
      match h !! l, lookupWeapons h ls' with
      | Some w, Some ws => Some (w :: ws)
      | _, _ => None
      end
  end.

(** The two locations differ and the weapon arrays of both units read
    as the lists the duel carries. *)
Definition grounded (g : Ground) (x : Duel) : Prop :=
  unitLoc g ≠ oppLoc g
  ∧ lookupWeapons (armory g) (weapons (unitD x)) = Some (unitArms x)
  ∧ lookupWeapons (armory g) (weapons (oppD x)) = Some (oppArms x).

Definition swapG (g : Ground) : Ground :=
  {| others := others g; armory := armory g;
     unitLoc := oppLoc g; oppLoc := unitLoc g |}.

Definition swapD (x : Duel) : Duel :=
  {| unitD := oppD x; unitArms := oppArms x; oppD := unitD x; oppArms := unitArms x;
     distanceD := distanceD x; logD := logD x; cursorD := cursorD x |}.

Definition viewOfUnit (x : Duel) : Unit := with_weapons (unitArms x) (unitD x).
Definition viewOfOpp (x : Duel) : Unit := with_weapons (oppArms x) (oppD x).

Definition setUnit (f : UnitObj → UnitObj) (x : Duel) : Duel :=
  {| unitD := f (unitD x); unitArms := unitArms x; oppD := oppD x; oppArms := oppArms x;
     distanceD := distanceD x; logD := logD x; cursorD := cursorD x |}.

Definition setOpp (f : UnitObj → UnitObj) (x : Duel) : Duel :=
  {| unitD := unitD x; unitArms := unitArms x; oppD := f (oppD x); oppArms := oppArms x;
     distanceD := distanceD x; logD := logD x; cursorD := cursorD x |}.

Definition setDist (d : Z) (x : Duel) : Duel :=
  {| unitD := unitD x; unitArms := unitArms x; oppD := oppD x; oppArms := oppArms x;
     distanceD := d; logD := logD x; cursorD := cursorD x |}.

Definition say (e : LogEntry) (x : Duel) : Duel :=
  {| unitD := unitD x; unitArms := unitArms x; oppD := oppD x; oppArms := oppArms x;
     distanceD := distanceD x; logD := logD x ++ [e]; cursorD := cursorD x |}.

Definition setCursor (k : nat) (x : Duel) : Duel :=
  {| unitD := unitD x; unitArms := unitArms x; oppD := oppD x; oppArms := oppArms x;
     distanceD := distanceD x; logD := logD x; cursorD := k |}.

Lemma embed_swap g x :
  unitLoc g ≠ oppLoc g → embed (swapG g) (swapD x) = embed g x.
Proof.
  intros Hne. unfold embed, swapG, swapD; simpl. f_equal.
  by apply insert_insert_ne.
Qed.

Lemma grounded_swap g x : grounded g x → grounded (swapG g) (swapD x).
Proof. intros (Hne & H1 & H2). by split; [| split]. Qed.

Lemma swapD_involutive x : swapD (swapD x) = x.
Proof. by destruct x. Qed.

Lemma swapG_involutive g : swapG (swapG g) = g.
Proof. by destruct g. Qed.

(** *** What the primitives do on an embedded duel *)

Lemma bind_run {A B} (m : M A) (f : A → M B) s a s' :
  m s = Some (a, s') → (m ≫= f) s = f a s'.
Proof. intros H. unfold mbind, sim_bind. by rewrite H. Qed.

Lemma readUnit_unit_run g x : readUnit (unitLoc g) (embed g x) = Some (unitD x, embed g x).
Proof. unfold readUnit, embed; simpl. by rewrite lookup_insert_eq. Qed.

Lemma readUnit_opp_run g x :
  unitLoc g ≠ oppLoc g → readUnit (oppLoc g) (embed g x) = Some (oppD x, embed g x).
Proof.
  intros Hne. unfold readUnit, embed; simpl.
  by rewrite lookup_insert_ne, lookup_insert_eq.
Qed.

Lemma modifyUnit_unit_run g x f :
  modifyUnit (unitLoc g) f (embed g x) = Some (tt, embed g (setUnit f x)).
Proof.
  unfold modifyUnit, embed; simpl. rewrite lookup_insert_eq.
  unfold with_unitStore; simpl. by rewrite insert_insert_eq.
Qed.

Lemma modifyUnit_opp_run g x f :
  unitLoc g ≠ oppLoc g →
  modifyUnit (oppLoc g) f (embed g x) = Some (tt, embed g (setOpp f x)).
Proof.
  intros Hne.
  rewrite <- (embed_swap g x Hne), <- (embed_swap g (setOpp f x) Hne).
  apply (modifyUnit_unit_run (swapG g) (swapD x)).
Qed.

Lemma readWeapons_run h ls ws s :
  weaponStore s = h → lookupWeapons h ls = Some ws → readWeapons ls s = Some (ws, s).
Proof.
  intros <-. revert ws. induction ls as [| l ls IH]; intros ws H; simpl in *.
  - by inversion H.
  - destruct (weaponStore s !! l) as [w |] eqn:El; [| done].
    destruct (lookupWeapons (weaponStore s) ls) as [ws' |]; [| done].
    inversion H; subst.
    erewrite bind_run; [| unfold readWeapon; by rewrite El].
    erewrite bind_run; [| by apply IH]. done.
Qed.

Lemma viewUnit_unit_run g x :
  grounded g x → viewUnit (unitLoc g) (embed g x) = Some (viewOfUnit x, embed g x).
Proof.
  intros (Hne & H1 & H2). unfold viewUnit.
  erewrite bind_run; [| apply readUnit_unit_run].
  erewrite bind_run; [| by eapply readWeapons_run]. done.
Qed.

Lemma viewUnit_opp_run g x :
  grounded g x → viewUnit (oppLoc g) (embed g x) = Some (viewOfOpp x, embed g x).
Proof.
  intros (Hne & H1 & H2). unfold viewUnit.
  erewrite bind_run; [| by apply readUnit_opp_run].
  erewrite bind_run; [| by eapply readWeapons_run]. done.
Qed.

Lemma getDistance_run g x : getDistance (embed g x) = Some (distanceD x, embed g x).
Proof. done. Qed.

Lemma setDistance_run g x d : setDistance d (embed g x) = Some (tt, embed g (setDist d x)).
Proof. done. Qed.

Lemma pushLog_run g x e : pushLog e (embed g x) = Some (tt, embed g (say e x)).
Proof. done. Qed.

Lemma liftRand_run {A} g x (r : Rand A) :
  liftRand r (embed g x) = Some ((r (cursorD x)).1, embed g (setCursor (r (cursorD x)).2 x)).
Proof. unfold liftRand; simpl. by destruct (r (cursorD x)). Qed.

Lemma ret_run {A} (a : A) (s : Sim) : (mret a : M A) s = Some (a, s).
Proof. done. Qed.

(** *** What the closures do to a duel *)

Definition moraleEffect (m : Morale) (u : UnitObj) : UnitObj :=
  match m with
  | PASS => u
  | SHAKEN => with_shaken true u
  | RETREAT => with_numModels 0 u
  end.

Definition moraleEntry (m : Morale) (n : string) : LogEntry :=
  match m with
  | PASS => LogPassed n
  | SHAKEN => LogShaken n
  | RETREAT => LogRetreats n
  end.

Ltac sim_step Hg Hne :=
  erewrite bind_run;
  [| first [ apply readUnit_unit_run
           | apply readUnit_opp_run; exact Hne
           | apply modifyUnit_unit_run
           | apply modifyUnit_opp_run; exact Hne
           | apply viewUnit_unit_run; exact Hg
           | apply viewUnit_opp_run; exact Hg
           | apply getDistance_run
           | apply setDistance_run
           | apply pushLog_run
           | apply liftRand_run ] ].

Section DuelEffects.

Variable rnd : nat → Z.

(** The morale branch of [handleMeleeRound]; [unitLost] tells which of
    the two is the loser. *)
Definition moraleD (unitLost : bool) (x : Duel) : Duel :=
  let lu := if unitLost then unitD x else oppD x in
  if 0 <? numModels lu then
    let mk := resolvePostCombatMorale rnd lu (originalNumModels lu) (cursorD x) in
    say (moraleEntry mk.1 (name lu))
      ((if unitLost then setUnit else setOpp) (moraleEffect mk.1)
         (setCursor mk.2 (say (LogLostCombat (name lu)) x)))
  else x.

(** The duel after the kills of a melee round, before morale. *)
Definition meleeKillsD (x : Duel) : Duel :=
  let u1 := viewOfUnit x in
  let u2 := viewOfOpp x in
  let mk := meleeResolution rnd u1 u2 (cursorD x) in
  let killsOnUnit2 := totalWoundsToDefender mk.1 `div` orDefault (toughValue u2) 1 in
  let killsOnUnit1 := totalWoundsToAttacker mk.1 `div` orDefault (toughValue u1) 1 in
  say (LogMeleeResult (name u1) killsOnUnit2 (name u2) killsOnUnit1)
    (setUnit (fun u => with_numModels (Z.max 0 (numModels u - killsOnUnit1)) u)
       (setOpp (fun u => with_numModels (Z.max 0 (numModels u - killsOnUnit2)) u)
          (setOpp (with_hasFought true)
             (setUnit (with_hasFought true) (setCursor mk.2 x))))).

(** [handleMeleeRound(unit, opponent)]. *)
Definition handleMeleeRoundD (x : Duel) : Duel :=
  let mr := (meleeResolution rnd (viewOfUnit x) (viewOfOpp x) (cursorD x)).1 in
  let x1 := meleeKillsD x in
  if totalWoundsToAttacker mr <? totalWoundsToDefender mr then moraleD false x1
  else if totalWoundsToDefender mr <? totalWoundsToAttacker mr then moraleD true x1
  else say LogDraw x1.

Definition advanceMoveD (initialDistance advanceRange : Z) (x : Duel) : ActionText * Duel :=
  if initialDistance =? 0 then
    (RetreatsAndShoots advanceRange, setDist (distanceD x + advanceRange) x)
  else
    (AdvancesAndShoots advanceRange, setDist (Z.max 0 (distanceD x - advanceRange)) x).

Definition shootD (u o : Unit) (x : Duel) : Duel :=
  match firedWeapon u (distanceD x) with
  | Some rangedWeapon =>
      let rk := rangedAttack rnd rangedWeapon u (numModels u) o (distanceD x) (cursorD x) in
      let kills := Z.min (numModels o) (totalWounds rk.1 `div` orDefault (toughValue o) 1) in
      say (LogKills (wname rangedWeapon) kills)
        (setOpp (fun y => with_numModels (numModels y - kills) y) (setCursor rk.2 x))
  | None => x
  end.

(** [unitActs(unit, opponent)]. *)
Definition unitActsD (x : Duel) : bool * Duel :=
  let u := viewOfUnit x in
  let o := viewOfOpp x in
  match decideAction u o (distanceD x) with
  | idle => (false, setUnit (with_shaken false) (say (LogIdles (name u)) x))
  | charge => (true, handleMeleeRoundD (say (LogCharges (name u) (name o)) (setDist 0 x)))
  | fight => (false, handleMeleeRoundD (say (LogFights (name u) (name o)) x))
  | hold => (false, shootD u o (say (LogShoots (name u) HoldsAndShoots) x))
  | advance =>
      let tx := advanceMoveD (distanceD x) (advanceRange u) x in
      (false, shootD u o (say (LogShoots (name u) tx.1) tx.2))
  | rush =>
      (false, say (LogRushes (name u) (chargeRange u))
                (setDist (Z.max 0 (distanceD x - chargeRange u)) x))
  end.

(** The two guarded calls of one turn, the unit of the duel first. *)
Definition actInOrderD (x : Duel) : Duel :=
  let cx := if 0 <? numModels (unitD x) then unitActsD x else (false, x) in
  if (0 <? numModels (oppD cx.2)) && negb cx.1
  then swapD (unitActsD (swapD cx.2)).2
  else cx.2.

(** The head of a turn: its log line and the reset of both fatigue
    flags. The unit of the duel is the attacker. *)
Definition turnHeadD (turn : Z) (x : Duel) : Duel :=
  setOpp (with_hasFought false) (setUnit (with_hasFought false) (say (LogTurn turn) x)).

Definition runTurnD (attackerFirst : bool) (turn : Z) (x : Duel) : Duel :=
  let x1 := turnHeadD turn x in
  if attackerFirst then actInOrderD x1 else swapD (actInOrderD (swapD x1)).

Fixpoint turnLoopD (left : nat) (attackerFirst : bool) (turn : Z) (x : Duel) : Z * Duel :=
  match left with
  | O => (turn, x)
  | S left' =>
      if (numModels (unitD x) <=? 0) || (numModels (oppD x) <=? 0) then (turn, x)
      else turnLoopD left' attackerFirst (turn + 1) (runTurnD attackerFirst turn x)
  end.

Lemma applyMorale_unit_run g x n m :
  applyMorale (unitLoc g) n m (embed g x)
  = Some (tt, embed g (say (moraleEntry m n) (setUnit (moraleEffect m) x))).
Proof.
  destruct m; unfold applyMorale; simpl.
  - done.
  - erewrite bind_run; [| apply modifyUnit_unit_run]. done.
  - erewrite bind_run; [| apply pushLog_run].
    by rewrite modifyUnit_unit_run.
Qed.

Lemma applyMorale_opp_run g x n m :
  unitLoc g ≠ oppLoc g →
  applyMorale (oppLoc g) n m (embed g x)
  = Some (tt, embed g (say (moraleEntry m n) (setOpp (moraleEffect m) x))).
Proof.
  intros Hne. destruct m; unfold applyMorale; simpl.
  - done.
  - erewrite bind_run; [| by apply modifyUnit_opp_run]. done.
  - erewrite bind_run; [| apply pushLog_run].
    by rewrite modifyUnit_opp_run.
Qed.

Lemma handleMeleeRound_run g x :
  grounded g x →
  handleMeleeRound rnd (unitLoc g) (oppLoc g) (embed g x)
  = Some (tt, embed g (handleMeleeRoundD x)).
Proof.
  intros Hg. pose proof Hg as (Hne & _ & _).
  unfold handleMeleeRound, handleMeleeRoundD.
  do 8 sim_step Hg Hne.
  set (mr := (meleeResolution rnd (viewOfUnit x) (viewOfOpp x) (cursorD x)).1).
  destruct (totalWoundsToAttacker mr <? totalWoundsToDefender mr);
    [| destruct (totalWoundsToDefender mr <? totalWoundsToAttacker mr)].
  - sim_step Hg Hne. unfold moraleD.
    destruct (0 <? numModels _); [| done].
    do 2 sim_step Hg Hne.
    by rewrite applyMorale_opp_run.
  - sim_step Hg Hne. unfold moraleD.
    destruct (0 <? numModels _); [| done].
    do 2 sim_step Hg Hne.
    by rewrite applyMorale_unit_run.
  - done.
Qed.

Lemma shoot_run g x u o :
  unitLoc g ≠ oppLoc g →
  shoot rnd u o (oppLoc g) (embed g x) = Some (tt, embed g (shootD u o x)).
Proof.
  intros Hne. unfold shoot, shootD.
  erewrite bind_run; [| apply getDistance_run].
  destruct (firedWeapon u (distanceD x)); [| done].
  erewrite bind_run; [| apply liftRand_run].
  erewrite bind_run; [| by apply modifyUnit_opp_run].
  done.
Qed.

Lemma advanceMove_run g x i a :
  advanceMove i a (embed g x)
  = Some ((advanceMoveD i a x).1, embed g (advanceMoveD i a x).2).
Proof. unfold advanceMove, advanceMoveD. by destruct (i =? 0). Qed.

Lemma unitActs_run g x :
  grounded g x →
  unitActs rnd (unitLoc g) (oppLoc g) (embed g x)
  = Some ((unitActsD x).1, embed g (unitActsD x).2).
Proof.
  intros Hg. pose proof Hg as (Hne & _ & _).
  unfold unitActs, unitActsD.
  do 3 sim_step Hg Hne.
  destruct (decideAction (viewOfUnit x) (viewOfOpp x) (distanceD x)); simpl.
  - do 2 sim_step Hg Hne. done.
  - sim_step Hg Hne.
    erewrite bind_run; [| by apply handleMeleeRound_run]. done.
  - erewrite bind_run; [| apply advanceMove_run].
    sim_step Hg Hne.
    erewrite bind_run; [| by apply shoot_run]. done.
  - do 2 sim_step Hg Hne.
    erewrite bind_run; [| by apply handleMeleeRound_run]. done.
  - sim_step Hg Hne.
    erewrite bind_run; [| by apply shoot_run]. done.
  - do 3 sim_step Hg Hne. done.
Qed.

End DuelEffects.

(** ** What a run preserves *)

(** A unit with the fields the loop assigns blanked. *)
Definition frozen (u : UnitObj) : UnitObj :=
  with_numModels 0 (with_shaken false (with_hasFought false u)).

(** [x'] differs from [x] at most in [numModels], [shaken] and
    [hasFoughtInMeleeThisTurn] of the two units, in the distance, the
    log and the cursor. *)
Definition sameKit (x x' : Duel) : Prop :=
  frozen (unitD x') = frozen (unitD x) ∧ unitArms x' = unitArms x
  ∧ frozen (oppD x') = frozen (oppD x) ∧ oppArms x' = oppArms x.

(** A unit the resolver's arithmetic makes sense for. *)
Definition fitUnit (u : UnitObj) (arms : list Weapon) : Prop :=
  0 <= numModels u ∧ 0 <= toughValue u ∧ 0 <= advanceRange u
  ∧ Forall (fun w => 0 <= Deadly w) arms.

Definition fit (x : Duel) : Prop :=
  fitUnit (unitD x) (unitArms x) ∧ fitUnit (oppD x) (oppArms x) ∧ 0 <= distanceD x.

(** No unit has more models in [x'] than in [x]. *)
Definition noGain (x x' : Duel) : Prop :=
  numModels (unitD x') <= numModels (unitD x)
  ∧ numModels (oppD x') <= numModels (oppD x).

(** What every step of the loop maintains. *)
Definition steady (x x' : Duel) : Prop :=
  sameKit x x' ∧ (fit x → fit x' ∧ noGain x x').

Lemma frozen_fields u u' :
  frozen u' = frozen u →
  name u' = name u ∧ toughValue u' = toughValue u ∧ advanceRange u' = advanceRange u
  ∧ weapons u' = weapons u ∧ originalNumModels u' = originalNumModels u.
Proof.
  intros H.
  repeat split;
    [ apply (f_equal name) in H | apply (f_equal toughValue) in H
    | apply (f_equal advanceRange) in H | apply (f_equal weapons) in H
    | apply (f_equal originalNumModels) in H ]; exact H.
Qed.

Lemma steady_refl x : steady x x.
Proof. split; [done |]. intros H. split; [done |]. unfold noGain. lia. Qed.

Lemma steady_trans x y z : steady x y → steady y z → steady x z.
Proof.
  intros [(K1 & K2 & K3 & K4) F1] [(L1 & L2 & L3 & L4) F2]. split.
  - unfold sameKit. by rewrite L1, L2, L3, L4.
  - intros Hx. destruct (F1 Hx) as [Hy [N1 N2]]. destruct (F2 Hy) as [Hz [N3 N4]].
    split; [done |]. unfold noGain. lia.
Qed.

Lemma steady_swap x x' : steady x x' → steady (swapD x) (swapD x').
Proof.
  intros [(K1 & K2 & K3 & K4) F]. split; [done |].
  intros (H1 & H2 & H3). destruct F as [(G1 & G2 & G3) [N1 N2]]; [done |].
  split; [done |]. split; done.
Qed.

Lemma grounded_sameKit g x x' : sameKit x x' → grounded g x → grounded g x'.
Proof.
  intros (K1 & K2 & K3 & K4) (Hne & H1 & H2). unfold grounded.
  apply frozen_fields in K1 as (_ & _ & _ & -> & _).
  apply frozen_fields in K3 as (_ & _ & _ & -> & _).
  rewrite K2, K4. done.
Qed.

Lemma orDefault_pos a d : 0 <= a → 0 < d → 0 < orDefault a d.
Proof. intros. unfold orDefault. destruct (Z.eqb_spec a 0); lia. Qed.

Lemma kills_nonneg wounds tough : 0 <= wounds → 0 <= tough → 0 <= wounds `div` orDefault tough 1.
Proof.
  intros Hw Ht. apply Z.div_pos; [done |]. apply orDefault_pos; lia.
Qed.

Lemma meleeWeapon_Deadly (u : Unit) :
  Forall (fun w => 0 <= Deadly w) (weapons u) → 0 <= Deadly (meleeWeapon u).
Proof.
  intros H. unfold meleeWeapon.
  destruct (find _ _) as [w |] eqn:E; simpl; [| done].
  apply find_some in E as [Hin _].
  rewrite Forall_forall in H. apply H. by apply list_elem_of_In.
Qed.

Lemma firedWeapon_Deadly (u : Unit) d w :
  Forall (fun w => 0 <= Deadly w) (weapons u) → firedWeapon u d = Some w → 0 <= Deadly w.
Proof.
  intros H E. apply find_some in E as [Hin _].
  rewrite Forall_forall in H. apply H. by apply list_elem_of_In.
Qed.

Section Steady.

Variable rnd : nat → Z.

Lemma moraleD_steady b x : steady x (moraleD rnd b x).
Proof.
  unfold moraleD.
  destruct b; simpl;
    (match goal with |- context [0 <? ?n] => destruct (Z.ltb_spec 0 n) end;
     [| apply steady_refl]);
    destruct (resolvePostCombatMorale rnd _ _ _) as [[] k]; simpl;
    (split; [done |]); intros ((? & ? & ? & ?) & (? & ? & ? & ?) & ?);
    (split; [done |]); unfold noGain; simpl; lia.
Qed.

Lemma meleeKillsD_steady x : steady x (meleeKillsD rnd x).
Proof.
  split; [done |].
  intros ((N1 & T1 & A1 & D1) & (N2 & T2 & A2 & D2) & Hd).
  pose proof (meleeResolution_nonneg rnd (viewOfUnit x) (viewOfOpp x) (cursorD x)
                (meleeWeapon_Deadly (viewOfUnit x) D1)
                (meleeWeapon_Deadly (viewOfOpp x) D2)) as [W1 W2].
  pose proof (kills_nonneg _ (toughValue (oppD x)) W1 T2) as K2.
  pose proof (kills_nonneg _ (toughValue (unitD x)) W2 T1) as K1.
  unfold meleeKillsD, fit, fitUnit, noGain; simpl in *.
  repeat split; try done; lia.
Qed.

Lemma handleMeleeRoundD_steady x : steady x (handleMeleeRoundD rnd x).
Proof.
  unfold handleMeleeRoundD.
  repeat match goal with |- context [if ?c then _ else _] => destruct c end.
  - eapply steady_trans; [apply meleeKillsD_steady | apply moraleD_steady].
  - eapply steady_trans; [apply meleeKillsD_steady | apply moraleD_steady].
  - eapply steady_trans; [apply meleeKillsD_steady |].
    split; [done |]. intros H. split; [done |]. unfold noGain; simpl. lia.
Qed.

Lemma shootD_steady x :
  steady x (shootD rnd (viewOfUnit x) (viewOfOpp x) x).
Proof.
  unfold shootD.
  destruct (firedWeapon (viewOfUnit x) (distanceD x)) as [w |] eqn:E;
    [| apply steady_refl].
  split; [done |].
  intros ((N1 & T1 & A1 & D1) & (N2 & T2 & A2 & D2) & Hd).
  pose proof (rangedAttack_nonneg rnd w (viewOfUnit x) (viewOfOpp x)
                (numModels (viewOfUnit x)) (distanceD x) (cursorD x)
                (firedWeapon_Deadly (viewOfUnit x) _ w D1 E)) as Hw.
  pose proof (kills_nonneg _ (toughValue (oppD x)) Hw T2) as K.
  unfold fit, fitUnit, noGain; simpl in *.
  repeat split; try done; lia.
Qed.

End Steady.

Lemma embed_swapG g z :
  unitLoc g ≠ oppLoc g → embed (swapG g) z = embed g (swapD z).
Proof.
  intros Hne. rewrite <- (embed_swap g (swapD z) Hne). by rewrite swapD_involutive.
Qed.

(** A change of distance, log or cursor alone. *)
Lemma steady_around x x' :
  unitD x' = unitD x → unitArms x' = unitArms x →
  oppD x' = oppD x → oppArms x' = oppArms x →
  (fit x → 0 <= distanceD x') → steady x x'.
Proof.
  intros E1 E2 E3 E4 Hd. split.
  - unfold sameKit. by rewrite E1, E2, E3, E4.
  - intros Hx. pose proof (Hd Hx). destruct Hx as (H1 & H2 & H3).
    unfold fit, noGain. rewrite E1, E2, E3, E4.
    split; [split; [done | split; done] | split; lia].
Qed.

Section SteadyTurns.

Variable rnd : nat → Z.

Lemma unitActsD_steady x : steady x (unitActsD rnd x).2.
Proof.
  unfold unitActsD.
  destruct (decideAction (viewOfUnit x) (viewOfOpp x) (distanceD x)); simpl.
  - split; [done |]. intros ((? & ? & ? & ?) & ? & ?).
    split; [done |]. unfold noGain; simpl. lia.
  - eapply steady_trans; [| apply handleMeleeRoundD_steady].
    apply steady_around; try done; intros (_ & _ & H); exact H.
  - unfold advanceMoveD.
    destruct (distanceD x =? 0); simpl.
    + eapply steady_trans;
        [| apply (shootD_steady rnd
                    (say (LogShoots (name (unitD x))
                            (RetreatsAndShoots (advanceRange (unitD x))))
                       (setDist (distanceD x + advanceRange (unitD x)) x)))].
      apply steady_around; try done;
        intros ((_ & _ & ? & _) & _ & ?); simpl; lia.
    + eapply steady_trans;
        [| apply (shootD_steady rnd
                    (say (LogShoots (name (unitD x))
                            (AdvancesAndShoots (advanceRange (unitD x))))
                       (setDist (Z.max 0 (distanceD x - advanceRange (unitD x))) x)))].
      apply steady_around; try done; intros _; simpl; lia.
  - eapply steady_trans; [| apply handleMeleeRoundD_steady].
    apply steady_around; try done; intros _; simpl; lia.
  - eapply steady_trans;
      [| apply (shootD_steady rnd (say (LogShoots (name (unitD x)) HoldsAndShoots) x))].
    apply steady_around; try done; intros (_ & _ & H); exact H.
  - apply steady_around; try done; intros _; simpl; lia.
Qed.

Lemma actInOrderD_steady x : steady x (actInOrderD rnd x).
Proof.
  unfold actInOrderD.
  set (cx := if 0 <? numModels (unitD x) then unitActsD rnd x else (false, x)).
  assert (steady x cx.2) as H1.
  { subst cx. destruct (0 <? numModels (unitD x)); simpl;
      [apply unitActsD_steady | apply steady_refl]. }
  destruct ((0 <? numModels (oppD cx.2)) && negb cx.1); [| done].
  eapply steady_trans; [exact H1 |].
  rewrite <- (swapD_involutive cx.2) at 1.
  apply steady_swap, unitActsD_steady.
Qed.

Lemma turnHeadD_steady turn x : steady x (turnHeadD turn x).
Proof.
  split; [done |]. intros ((? & ? & ? & ?) & (? & ? & ? & ?) & ?).
  split; [done |]. unfold noGain; simpl. lia.
Qed.

Lemma runTurnD_steady attackerFirst turn x : steady x (runTurnD rnd attackerFirst turn x).
Proof.
  unfold runTurnD.
  eapply steady_trans; [apply turnHeadD_steady |].
  destruct attackerFirst; [apply actInOrderD_steady |].
  rewrite <- (swapD_involutive (turnHeadD turn x)) at 1.
  apply steady_swap, actInOrderD_steady.
Qed.

Lemma turnLoopD_steady left attackerFirst turn x :
  steady x (turnLoopD rnd left attackerFirst turn x).2.
Proof.
  revert turn x. induction left as [| left IH]; intros turn x; simpl.
  - apply steady_refl.
  - destruct (_ || _); simpl; [apply steady_refl |].
    eapply steady_trans; [apply runTurnD_steady | apply IH].
Qed.

(** *** The loop on an embedded duel *)

Lemma unitActs_swapped_run g x :
  grounded g x →
  unitActs rnd (oppLoc g) (unitLoc g) (embed g x)
  = Some ((unitActsD rnd (swapD x)).1, embed g (swapD (unitActsD rnd (swapD x)).2)).
Proof.
  intros Hg. pose proof Hg as (Hne & _ & _).
  pose proof (unitActs_run rnd (swapG g) (swapD x) (grounded_swap g x Hg)) as H.
  rewrite (embed_swap g x Hne), (embed_swapG g _ Hne) in H. exact H.
Qed.

Lemma actInOrder_run g x :
  grounded g x →
  actInOrder rnd (unitLoc g) (oppLoc g) (embed g x)
  = Some (tt, embed g (actInOrderD rnd x)).
Proof.
  intros Hg. pose proof Hg as (Hne & _ & _).
  unfold actInOrder, actInOrderD.
  sim_step Hg Hne.
  set (cx := if 0 <? numModels (unitD x) then unitActsD rnd x else (false, x)).
  assert (grounded g cx.2) as Hg'.
  { eapply grounded_sameKit; [| exact Hg]. subst cx.
    destruct (0 <? numModels (unitD x)); simpl;
      [apply unitActsD_steady | apply steady_refl]. }
  erewrite bind_run with (a := cx.1) (s' := embed g cx.2);
    [| subst cx; destruct (0 <? numModels (unitD x)); [by apply unitActs_run | done]].
  sim_step Hg' Hne.
  destruct ((0 <? numModels (oppD cx.2)) && negb cx.1); [| done].
  erewrite bind_run; [| by apply unitActs_swapped_run]. done.
Qed.

Lemma runTurn_run g attackerFirst turn x :
  grounded g x →
  runTurn rnd (unitLoc g) (oppLoc g) attackerFirst turn (embed g x)
  = Some (tt, embed g (runTurnD rnd attackerFirst turn x)).
Proof.
  intros Hg. pose proof Hg as (Hne & _ & _).
  unfold runTurn, runTurnD.
  do 3 sim_step Hg Hne.
  change (setOpp _ (setUnit _ (say (LogTurn turn) x))) with (turnHeadD turn x).
  assert (grounded g (turnHeadD turn x)) as Hg' by exact Hg.
  destruct attackerFirst; [by apply actInOrder_run |].
  pose proof (actInOrder_run (swapG g) (swapD (turnHeadD turn x))
                (grounded_swap g _ Hg')) as H.
  rewrite (embed_swap g _ Hne), (embed_swapG g _ Hne) in H. exact H.
Qed.

Lemma turnLoop_run g left attackerFirst turn x :
  grounded g x →
  turnLoop rnd left (unitLoc g) (oppLoc g) attackerFirst turn (embed g x)
  = Some ((turnLoopD rnd left attackerFirst turn x).1,
          embed g (turnLoopD rnd left attackerFirst turn x).2).
Proof.
  revert turn x. induction left as [| left IH]; intros turn x Hg; simpl; [done |].
  pose proof Hg as (Hne & _ & _).
  do 2 sim_step Hg Hne.
  destruct (_ || _); [done |].
  erewrite bind_run; [| by apply runTurn_run].
  apply IH. eapply grounded_sameKit; [apply runTurnD_steady | exact Hg].
Qed.

End SteadyTurns.

(** ** Cloning *)

Lemma lookupWeapons_mono h h' ls ws :
  h ⊆ h' → lookupWeapons h ls = Some ws → lookupWeapons h' ls = Some ws.
Proof.
  intros Hsub. revert ws. induction ls as [| l ls IH]; intros ws H; simpl in *; [done |].
  destruct (h !! l) as [w |] eqn:El; [| done].
  destruct (lookupWeapons h ls) as [ws' |]; [| done].
  rewrite (lookup_weaken h h' l w El Hsub), (IH ws' eq_refl). done.
Qed.

Lemma fresh_unit_None (h : gmap loc UnitObj) : h !! fresh (dom h) = None.
Proof. apply not_elem_of_dom, is_fresh. Qed.

Lemma fresh_weapon_None (h : gmap loc Weapon) : h !! fresh (dom h) = None.
Proof. apply not_elem_of_dom, is_fresh. Qed.

(** Cloning a weapon array allocates new weapon objects with the same
    contents and touches nothing else. *)
Lemma cloneWeapons_run ls : ∀ s ws,
  lookupWeapons (weaponStore s) ls = Some ws →
  ∃ ls' h', cloneWeapons ls s = Some (ls', with_weaponStore h' s)
            ∧ weaponStore s ⊆ h'
            ∧ lookupWeapons h' ls' = Some ws.
Proof.
  induction ls as [| l ls IH]; intros s ws H; simpl in *.
  - inversion H; subst. exists [], (weaponStore s).
    split; [by destruct s |]. done.
  - destruct (weaponStore s !! l) as [w |] eqn:El; [| done].
    destruct (lookupWeapons (weaponStore s) ls) as [ws' |] eqn:Els; [| done].
    inversion H; subst.
    set (l' := fresh (dom (weaponStore s))).
    set (s1 := with_weaponStore (<[l' := w]> (weaponStore s)) s).
    assert (weaponStore s ⊆ weaponStore s1) as Hsub.
    { apply insert_subseteq, fresh_weapon_None. }
    destruct (IH s1 ws' (lookupWeapons_mono _ _ _ _ Hsub Els)) as (ls' & h' & Hrun & Hsub' & Hl).
    exists (l' :: ls'), h'.
    split; [| split].
    + erewrite bind_run; [| unfold readWeapon; by rewrite El].
      erewrite bind_run; [| reflexivity].
      erewrite bind_run; [| exact Hrun]. done.
    + by etrans.
    + simpl. rewrite Hl.
      rewrite (lookup_weaken (weaponStore s1) h' l' w); [done | | done].
      apply lookup_insert_eq.
Qed.

(** The object [cloneUnit] allocates for [u], its weapon array being
    [ls]. *)
Definition cloneOf (u : UnitObj) (ls : list loc) : UnitObj :=
  with_hasFought false (with_shaken false
    (with_originalNumModels (numModels u) (with_weapons ls u))).

Lemma cloneUnit_run (l : loc) (s : Sim) (u : UnitObj) (ws : list Weapon) :
  unitStore s !! l = Some u →
  lookupWeapons (weaponStore s) (weapons u) = Some ws →
  ∃ ls' h',
    cloneUnit l s
    = Some (fresh (dom (unitStore s)),
            with_unitStore (<[fresh (dom (unitStore s)) := cloneOf u ls']> (unitStore s))
              (with_weaponStore h' s))
    ∧ weaponStore s ⊆ h'
    ∧ lookupWeapons h' ls' = Some ws.
Proof.
  intros Hu Hws.
  destruct (cloneWeapons_run (weapons u) s ws Hws) as (ls' & h' & Hrun & Hsub & Hl).
  exists ls', h'. split; [| done].
  unfold cloneUnit.
  erewrite bind_run; [| unfold readUnit; by rewrite Hu].
  erewrite bind_run; [| exact Hrun]. done.
Qed.

(** The clone after [advanceRange] and [chargeRange] are assigned. *)
Definition withRanges (u : UnitObj) : UnitObj :=
  with_chargeRange (moveAllowance u 16 8 12) (with_advanceRange (moveAllowance u 8 4 6) u).

Lemma setRanges_unit_run g x :
  setRanges (unitLoc g) (embed g x) = Some (tt, embed g (setUnit withRanges x)).
Proof.
  unfold setRanges.
  erewrite bind_run; [| apply readUnit_unit_run].
  erewrite bind_run; [| apply modifyUnit_unit_run].
  by rewrite modifyUnit_unit_run.
Qed.

Lemma setRanges_opp_run g x :
  unitLoc g ≠ oppLoc g →
  setRanges (oppLoc g) (embed g x) = Some (tt, embed g (setOpp withRanges x)).
Proof.
  intros Hne. unfold setRanges.
  erewrite bind_run; [| by apply readUnit_opp_run].
  erewrite bind_run; [| by apply modifyUnit_opp_run].
  by rewrite modifyUnit_opp_run.
Qed.

Lemma moveAllowance_cases {W} (u : UnitOf W) f s n :
  moveAllowance u f s n = f ∨ moveAllowance u f s n = s ∨ moveAllowance u f s n = n.
Proof.
  unfold moveAllowance.
  destruct (includes "Fast" _); [by left |].
  destruct (includes "Slow" _); [right; by left | right; by right].
Qed.

(** ** The whole engagement as a run of the loop on a duel *)

(** The duel the loop starts from: both clones with their movement
    allowances, the starting distance, an empty log. *)
Definition startDuel (ua : UnitObj) (lsA : list loc) (wsA : list Weapon)
    (ub : UnitObj) (lsB : list loc) (wsB : list Weapon) (d : Z) (k : nat) : Duel :=
  {| unitD := withRanges (cloneOf ua lsA); unitArms := wsA;
     oppD := withRanges (cloneOf ub lsB); oppArms := wsB;
     distanceD := d; logD := []; cursorD := k |}.

(** The record returned after the loop has left [turn] and duel [tx]. *)
Definition resultOf (tx : Z * Duel) : Result :=
  {| turnsElapsed := tx.1 - 1; finalDistance := distanceD tx.2;
     survivingA := numModels (unitD tx.2); survivingB := numModels (oppD tx.2);
     resultLog := logD tx.2 |}.

Definition clearLog (x : Duel) : Duel :=
  {| unitD := unitD x; unitArms := unitArms x; oppD := oppD x; oppArms := oppArms x;
     distanceD := distanceD x; logD := []; cursorD := cursorD x |}.

Lemma newLog_run g x : newLog (embed g x) = Some (tt, embed g (clearLog x)).
Proof. done. Qed.

Lemma getLog_run g x : getLog (embed g x) = Some (logD x, embed g x).
Proof. done. Qed.

(** The caller's objects are valid: both references point to units
    whose weapon arrays point to weapons. *)
Definition validInput (s : Sim) (unitA unitB : loc) (ua ub : UnitObj)
    (wsA wsB : list Weapon) : Prop :=
  unitStore s !! unitA = Some ua
  ∧ lookupWeapons (weaponStore s) (weapons ua) = Some wsA
  ∧ unitStore s !! unitB = Some ub
  ∧ lookupWeapons (weaponStore s) (weapons ub) = Some wsB.

Lemma simulate_run (rnd : nat → Z) (unitA unitB : loc) (startingDistance : option Z)
    (attackerFirst : option bool) (s : Sim) ua ub wsA wsB :
  validInput s unitA unitB ua ub wsA wsB →
  ∃ g lsA lsB,
    let x0 := startDuel ua lsA wsA ub lsB wsB (default 24 startingDistance) (cursor s) in
    let tx := turnLoopD rnd 4 (default true attackerFirst) 1 x0 in
    simulateRangedExchangeUntilMelee rnd unitA unitB startingDistance attackerFirst s
    = Some (resultOf tx, embed g tx.2)
    ∧ others g = unitStore s
    ∧ weaponStore s ⊆ armory g
    ∧ unitStore s !! unitLoc g = None
    ∧ unitStore s !! oppLoc g = None
    ∧ grounded g x0.
Proof.
  intros (HA & HwA & HB & HwB).
  destruct (cloneUnit_run unitA s ua wsA HA HwA) as (lsA & h1 & RunA & Sub1 & LA).
  set (la := fresh (dom (unitStore s))) in *.
  set (s1 := with_unitStore (<[la := cloneOf ua lsA]> (unitStore s))
               (with_weaponStore h1 s)) in *.
  assert (unitStore s !! la = None) as FreshA by apply fresh_unit_None.
  assert (la ≠ unitB) as NeAB by (intros ->; congruence).
  assert (unitStore s1 !! unitB = Some ub) as HB1.
  { subst s1; simpl. by rewrite lookup_insert_ne. }
  assert (lookupWeapons (weaponStore s1) (weapons ub) = Some wsB) as HwB1.
  { subst s1; simpl. by eapply lookupWeapons_mono. }
  destruct (cloneUnit_run unitB s1 ub wsB HB1 HwB1) as (lsB & h2 & RunB & Sub2 & LB).
  set (ld := fresh (dom (unitStore s1))) in *.
  assert (unitStore s1 !! ld = None) as FreshB by apply fresh_unit_None.
  assert (la ≠ ld ∧ unitStore s !! ld = None) as [Hne FreshB'].
  { subst s1; simpl in FreshB. apply lookup_insert_None in FreshB as [? ?]. done. }
  set (g := {| others := unitStore s; armory := h2; unitLoc := la; oppLoc := ld |}).
  set (x := {| unitD := cloneOf ua lsA; unitArms := wsA;
               oppD := cloneOf ub lsB; oppArms := wsB;
               distanceD := currentDistance s; logD := log s; cursorD := cursor s |}).
  assert (with_unitStore (<[ld := cloneOf ub lsB]> (unitStore s1))
            (with_weaponStore h2 s1) = embed g x) as Es2.
  { subst s1 g x. unfold embed, with_unitStore, with_weaponStore; simpl.
    f_equal. by apply insert_insert_ne. }
  rewrite Es2 in RunB.
  exists g, lsA, lsB. simpl.
  assert (grounded g (startDuel ua lsA wsA ub lsB wsB (default 24 startingDistance)
                        (cursor s))) as Hg.
  { split; [done |]. split; simpl; [by eapply lookupWeapons_mono | done]. }
  split; [| split; [done | split; [by etrans | done]]].
  unfold simulateRangedExchangeUntilMelee.
  erewrite bind_run; [| exact RunA].
  erewrite bind_run; [| exact RunB].
  erewrite bind_run; [| apply (setRanges_unit_run g)].
  erewrite bind_run; [| by apply (setRanges_opp_run g)].
  erewrite bind_run; [| apply setDistance_run].
  erewrite bind_run; [| apply newLog_run].
  erewrite bind_run; [| apply (turnLoop_run rnd g 4); exact Hg].
  erewrite bind_run; [| apply readUnit_unit_run].
  erewrite bind_run; [| by apply readUnit_opp_run].
  erewrite bind_run; [| apply getDistance_run].
  erewrite bind_run; [| apply getLog_run].
  done.
Qed.

(** ** The caller's records *)

(** C7. A run of the simulator on valid input returns, and every unit
    object and every weapon object that was in the store before the
    call is in it afterwards with the same fields; in particular
    [unitA], [unitB] and the weapons of their arrays read as before,
    so that a further call is given the same input. *)
Theorem simulate_leaves_input (rnd : nat → Z) (unitA unitB : loc)
    (startingDistance : option Z) (attackerFirst : option bool) (s : Sim)
    (ua ub : UnitObj) (wsA wsB : list Weapon) :
  validInput s unitA unitB ua ub wsA wsB →
  ∃ r s',
    simulateRangedExchangeUntilMelee rnd unitA unitB startingDistance attackerFirst s
    = Some (r, s')
    ∧ unitStore s ⊆ unitStore s'
    ∧ weaponStore s ⊆ weaponStore s'
    ∧ validInput s' unitA unitB ua ub wsA wsB.
Proof.
  intros Hv.
  destruct (simulate_run rnd unitA unitB startingDistance attackerFirst s
              ua ub wsA wsB Hv) as (g & lsA & lsB & Run & Ho & Hw & FA & FB & Hg).
  simpl in Run. eexists _, _. split; [exact Run |].
  destruct Hv as (HA & HwA & HB & HwB).
  assert (unitStore s ⊆ unitStore (embed g
            (turnLoopD rnd 4 (default true attackerFirst) 1
               (startDuel ua lsA wsA ub lsB wsB (default 24 startingDistance)
                  (cursor s))).2)) as Hsub.
  { unfold embed; simpl. rewrite Ho.
    etrans; [| apply insert_subseteq].
    - apply insert_subseteq. exact FB.
    - rewrite lookup_insert_ne; [exact FA |].
      destruct Hg as (Hne & _). congruence. }
  split; [exact Hsub |]. split; [exact Hw |].
  split; [by eapply lookup_weaken |].
  split; [by eapply lookupWeapons_mono |].
  split; [by eapply lookup_weaken |].
  by eapply lookupWeapons_mono.
Qed.

(** *** A battlefield for the examples *)

Definition sword : Weapon :=
  {| wname := "Sword"; count := 5; Range := 0; Attacks := 3; AP := 0;
     Furious := false; Predator := false; Deadly := 0 |}.

Definition knights : UnitObj :=
  {| name := "Knights"; numModels := 5; quality := 2; defense := 3; points := 200;
     toughValue := 0; Modifier := 0; specialRules := [];
     weapons := [1%positive]; originalNumModels := 0; shaken := false;
     hasFoughtInMeleeThisTurn := false; advanceRange := 0; chargeRange := 0 |}.

Definition scribe : UnitObj :=
  {| name := "Scribe"; numModels := 1; quality := 6; defense := 6; points := 10;
     toughValue := 0; Modifier := 0; specialRules := [];
     weapons := []; originalNumModels := 0; shaken := false;
     hasFoughtInMeleeThisTurn := false; advanceRange := 0; chargeRange := 0 |}.

(** The caller's store: the knights at 1 with their sword at 1, the
    scribe at 2. *)
Definition field : Sim :=
  {| unitStore := <[1%positive := knights]> {[ 2%positive := scribe ]};
     weaponStore := {[ 1%positive := sword ]};
     currentDistance := 0; log := []; cursor := 0 |}.

(** Fifteen sixes, then ones. *)
Definition fifteenSixes (k : nat) : Z := if (k <? 15)%nat then 5 else 0.

Lemma field_valid : validInput field 1%positive 2%positive knights scribe [sword] [].
Proof. repeat split; reflexivity. Defined.

(** [simulate_leaves_input] on the field. *)
Lemma simulate_leaves_input_witness :
  validInput field 1%positive 2%positive knights scribe [sword] []
  ∧ ∃ r s',
      simulateRangedExchangeUntilMelee fifteenSixes 1%positive 2%positive
        (Some 0) (Some true) field = Some (r, s')
      ∧ unitStore field ⊆ unitStore s'
      ∧ weaponStore field ⊆ weaponStore s'
      ∧ validInput s' 1%positive 2%positive knights scribe [sword] [].
Proof.
  split; [repeat split; reflexivity |].
  apply (simulate_leaves_input fifteenSixes 1%positive 2%positive (Some 0) (Some true)
           field knights scribe [sword] []).
  repeat split; reflexivity.
Defined.

(** ** Termination and bounds *)

(** A caller's unit the simulator is meant for: a model count and a
    toughness that are not negative, no negative Deadly factor. *)
Definition wellFormed (u : UnitObj) (ws : list Weapon) : Prop :=
  0 <= numModels u ∧ 0 <= toughValue u ∧ Forall (fun w => 0 <= Deadly w) ws.

(** The [break] test of the turn loop. *)
Definition anyDestroyed (x : Duel) : bool :=
  (numModels (unitD x) <=? 0) || (numModels (oppD x) <=? 0).

Section Turns.

Variable rnd : nat → Z.
Variable attackerFirst : bool.

(** The duel after [n] turns numbered from [t], none skipped. *)
Fixpoint turnsFrom (n : nat) (t : Z) (x : Duel) : Duel :=
  match n with
  | O => x
  | S n' => turnsFrom n' (t + 1) (runTurnD rnd attackerFirst t x)
  end.

Lemma turnsFrom_steady n t x : steady x (turnsFrom n t x).
Proof.
  revert t x. induction n as [| n IH]; intros t x; simpl; [apply steady_refl |].
  eapply steady_trans; [apply runTurnD_steady | apply IH].
Qed.

Lemma turnsFrom_S n t x :
  turnsFrom (S n) t x = runTurnD rnd attackerFirst (t + Z.of_nat n) (turnsFrom n t x).
Proof.
  revert t x. induction n as [| n IH]; intros t x.
  - simpl. by rewrite Z.add_0_r.
  - change (turnsFrom (S (S n)) t x)
      with (turnsFrom (S n) (t + 1) (runTurnD rnd attackerFirst t x)).
    rewrite IH. simpl turnsFrom. f_equal. lia.
Qed.

(** The loop runs whole turns until a turn begins with a unit at no
    models or the admitted iterations are used up. *)
Lemma turnLoopD_stops left t x :
  ∃ T, (T <= left)%nat
       ∧ turnLoopD rnd left attackerFirst t x = (t + Z.of_nat T, turnsFrom T t x)
       ∧ (∀ n, (n < T)%nat → anyDestroyed (turnsFrom n t x) = false)
       ∧ (T = left ∨ anyDestroyed (turnsFrom T t x) = true).
Proof.
  revert t x. induction left as [| left IH]; intros t x; simpl.
  - exists 0%nat. split; [lia |]. split; [by rewrite Z.add_0_r |].
    split; [intros n Hn; lia | by left].
  - destruct ((numModels (unitD x) <=? 0) || (numModels (oppD x) <=? 0)) eqn:E.
    + exists 0%nat. split; [lia |]. split; [by rewrite Z.add_0_r |].
      split; [intros n Hn; lia | by right].
    + destruct (IH (t + 1) (runTurnD rnd attackerFirst t x)) as (T & HT & Run & Alive & Stop).
      exists (S T). split; [lia |]. split; [| split].
      * rewrite Run. simpl. f_equal. lia.
      * intros [| n] Hn; simpl; [exact E | apply Alive; lia].
      * destruct Stop as [-> | Stop]; [by left | by right].
Qed.

End Turns.

Lemma startDuel_fit ua lsA wsA ub lsB wsB d k :
  wellFormed ua wsA → wellFormed ub wsB → 0 <= d →
  fit (startDuel ua lsA wsA ub lsB wsB d k).
Proof.
  intros (N1 & T1 & D1) (N2 & T2 & D2) Hd.
  unfold fit, fitUnit, startDuel, withRanges, cloneOf, moveAllowance; simpl.
  destruct (includes "Fast" (specialRules ua)), (includes "Slow" (specialRules ua)),
    (includes "Fast" (specialRules ub)), (includes "Slow" (specialRules ub));
    repeat split; try done; lia.
Qed.

(** Within a turn too: one call of [unitActs] on two units in bounds
    returns and leaves them in bounds, neither with more models. *)
Lemma unitActs_in_bounds (rnd : nat → Z) g x :
  grounded g x → fit x →
  ∃ c x', unitActs rnd (unitLoc g) (oppLoc g) (embed g x) = Some (c, embed g x')
          ∧ grounded g x' ∧ fit x' ∧ noGain x x'.
Proof.
  intros Hg Hf. exists (unitActsD rnd x).1, (unitActsD rnd x).2.
  destruct (unitActsD_steady rnd x) as [K F]. destruct (F Hf) as [Hf' Hn].
  split; [by apply unitActs_run |]. split; [by eapply grounded_sameKit |]. done.
Qed.

(** C6. On well-formed units and a starting distance that is not
    negative the simulator returns, with [turnsElapsed] at most 4. It
    runs whole turns from the cloned units: [T] of them, where no turn
    before the [T]-th began with a unit at 0 models and either [T] is 4
    or the next turn would begin with a unit at 0 models. After every
    number of turns both model counts are between 0 and the caller's
    [numModels], no count is above what it was a turn earlier, and the
    distance is not negative; so for the counts and the distance
    returned. *)
Theorem simulate_terminates_in_bounds (rnd : nat → Z) (unitA unitB : loc)
    (startingDistance : option Z) (attackerFirst : option bool) (s : Sim)
    (ua ub : UnitObj) (wsA wsB : list Weapon) :
  validInput s unitA unitB ua ub wsA wsB →
  wellFormed ua wsA → wellFormed ub wsB →
  0 <= default 24 startingDistance →
  ∃ r s' g x0 T,
    let after n := turnsFrom rnd (default true attackerFirst) n 1 x0 in
    simulateRangedExchangeUntilMelee rnd unitA unitB startingDistance attackerFirst s
    = Some (r, s')
    ∧ (numModels (unitD x0) = numModels ua ∧ numModels (oppD x0) = numModels ub
       ∧ distanceD x0 = default 24 startingDistance)
    ∧ ((T <= 4)%nat ∧ turnsElapsed r = Z.of_nat T
       ∧ (∀ n, (n < T)%nat → anyDestroyed (after n) = false)
       ∧ (T = 4%nat ∨ anyDestroyed (after T) = true))
    ∧ (s' = embed g (after T)
       ∧ survivingA r = numModels (unitD (after T))
       ∧ survivingB r = numModels (oppD (after T))
       ∧ finalDistance r = distanceD (after T))
    ∧ (∀ n, 0 <= numModels (unitD (after n)) <= numModels ua
            ∧ 0 <= numModels (oppD (after n)) <= numModels ub
            ∧ 0 <= distanceD (after n)
            ∧ noGain (after n) (after (S n)))
    ∧ (0 <= turnsElapsed r <= 4
       ∧ 0 <= survivingA r <= numModels ua
       ∧ 0 <= survivingB r <= numModels ub
       ∧ 0 <= finalDistance r).
Proof.
  intros Hv WA WB Hd.
  destruct (simulate_run rnd unitA unitB startingDistance attackerFirst s
              ua ub wsA wsB Hv) as (g & lsA & lsB & Run & _ & _ & _ & _ & Hg).
  cbv zeta in Run.
  set (x0 := startDuel ua lsA wsA ub lsB wsB (default 24 startingDistance) (cursor s)) in *.
  set (af := default true attackerFirst) in *.
  destruct (turnLoopD_stops rnd af 4 1 x0) as (T & HT & Loop & Alive & Stop).
  rewrite Loop in Run.
  assert (fit x0) as Hf by (by apply startDuel_fit).
  assert (∀ n, 0 <= numModels (unitD (turnsFrom rnd af n 1 x0)) <= numModels ua
               ∧ 0 <= numModels (oppD (turnsFrom rnd af n 1 x0)) <= numModels ub
               ∧ 0 <= distanceD (turnsFrom rnd af n 1 x0)
               ∧ noGain (turnsFrom rnd af n 1 x0) (turnsFrom rnd af (S n) 1 x0)) as Hall.
  { intros n.
    destruct (turnsFrom_steady rnd af n 1 x0) as [_ F].
    destruct (F Hf) as [((N1 & _) & (N2 & _) & D) [G1 G2]].
    rewrite turnsFrom_S.
    destruct (runTurnD_steady rnd af (1 + Z.of_nat n) (turnsFrom rnd af n 1 x0)) as [_ F'].
    destruct F' as [_ Hn]; [by apply (F Hf) |].
    simpl in G1, G2. split; [lia | split; [lia | split; [lia | exact Hn]]]. }
  exists (resultOf (1 + Z.of_nat T, turnsFrom rnd af T 1 x0)),
    (embed g (turnsFrom rnd af T 1 x0)), g, x0, T.
  simpl. split; [exact Run |]. split; [done |].
  split; [repeat split; try done; lia |].
  split; [done |]. split; [exact Hall |].
  destruct (Hall T) as (H1 & H2 & H3 & _). repeat split; lia.
Qed.

(** [simulate_terminates_in_bounds] on the field. *)
Lemma simulate_terminates_in_bounds_witness :
  validInput field 1%positive 2%positive knights scribe [sword] []
  ∧ wellFormed knights [sword] ∧ wellFormed scribe []
  ∧ ∃ r s',
      simulateRangedExchangeUntilMelee fifteenSixes 1%positive 2%positive
        (Some 0) (Some true) field = Some (r, s')
      ∧ 0 <= turnsElapsed r <= 4
      ∧ 0 <= survivingA r <= numModels knights
      ∧ 0 <= survivingB r <= numModels scribe
      ∧ 0 <= finalDistance r.
Proof.
  assert (wellFormed knights [sword]) as WA.
  { split; [simpl; lia |]. split; [simpl; lia |].
    constructor; [simpl; lia | constructor]. }
  assert (wellFormed scribe []) as WB.
  { split; [simpl; lia |]. split; [simpl; lia | constructor]. }
  split; [repeat split; reflexivity |]. split; [exact WA |]. split; [exact WB |].
  destruct (simulate_terminates_in_bounds fifteenSixes 1%positive 2%positive
              (Some 0) (Some true) field knights scribe [sword] [])
    as (r & s' & g & x0 & T & Run & _ & _ & _ & _ & Hr);
    [repeat split; reflexivity | exact WA | exact WB | simpl; lia |].
  exists r, s'. split; [exact Run | exact Hr].
Defined.

(** The field with the scribe's unit already at no models. *)
Definition fieldOfTheFallen : Sim :=
  {| unitStore := <[1%positive := knights]> {[ 2%positive := with_numModels 0 scribe ]};
     weaponStore := {[ 1%positive := sword ]};
     currentDistance := 0; log := []; cursor := 0 |}.

(** C6, as stated, fails for a negative starting distance: started at
    -5 with a unit that has no models, the simulator returns -5 as the
    final distance; started at -5 with both units standing, the
    distance is -5 when the first turn begins. *)
Lemma negative_start_breaks_distance :
  (fst <$> simulateRangedExchangeUntilMelee fifteenSixes 1%positive 2%positive
             (Some (-5)) (Some true) fieldOfTheFallen)
  = Some {| turnsElapsed := 0; finalDistance := -5; survivingA := 5;
            survivingB := 0; resultLog := [] |}
  ∧ wellFormed knights [sword] ∧ wellFormed (with_numModels 0 scribe) []
  ∧ -5 < 0
  ∧ distanceD (turnsFrom fifteenSixes true 0 1
                 (startDuel knights [] [sword] scribe [] [] (-5) 0)) = -5.
Proof.
  split; [vm_compute; reflexivity |].
  split; [split; [simpl; lia | split; [simpl; lia | repeat constructor; simpl; lia]] |].
  split; [split; [simpl; lia | split; [simpl; lia | constructor]] |].
  split; [lia | reflexivity].
Qed.

(** ** When morale is tested *)

(** C10. After the kills of a melee round the morale test is made
    exactly when one side suffered strictly more wounds and that side
    still has a model. In a draw, and when the loser was reduced to no
    models, the round ends in the state the kills left: no further die
    is drawn after those of the melee resolution, no [shaken] flag and
    no model count is changed by morale. When the test is made, at
    least one die is drawn for it. *)
Theorem morale_only_for_surviving_loser (rnd : nat → Z) (g : Ground) (x : Duel) :
  grounded g x →
  let mk := meleeResolution rnd (viewOfUnit x) (viewOfOpp x) (cursorD x) in
  let killsOnUnit2 := totalWoundsToDefender mk.1 `div` orDefault (toughValue (oppD x)) 1 in
  let killsOnUnit1 := totalWoundsToAttacker mk.1 `div` orDefault (toughValue (unitD x)) 1 in
  let x1 := meleeKillsD rnd x in
  let loser :=
    if totalWoundsToAttacker mk.1 <? totalWoundsToDefender mk.1 then Some (oppD x1)
    else if totalWoundsToDefender mk.1 <? totalWoundsToAttacker mk.1 then Some (unitD x1)
    else None in
  (cursorD x1 = mk.2
   ∧ shaken (unitD x1) = shaken (unitD x) ∧ shaken (oppD x1) = shaken (oppD x)
   ∧ numModels (unitD x1) = Z.max 0 (numModels (unitD x) - killsOnUnit1)
   ∧ numModels (oppD x1) = Z.max 0 (numModels (oppD x) - killsOnUnit2))
  ∧ ∃ s', handleMeleeRound rnd (unitLoc g) (oppLoc g) (embed g x) = Some (tt, s')
      ∧ match loser with
        | None => s' = embed g (say LogDraw x1)
        | Some lu =>
            if 0 <? numModels lu then
              let rk := resolvePostCombatMorale rnd lu (originalNumModels lu) mk.2 in
              (mk.2 < cursor s')%nat ∧ cursor s' = rk.2
              ∧ log s' = logD x1 ++ [LogLostCombat (name lu); moraleEntry rk.1 (name lu)]
            else s' = embed g x1
        end.
Proof.
  intros Hg mk k2 k1 x1 loser. split; [done |].
  eexists. split; [by apply handleMeleeRound_run |].
  subst loser. unfold handleMeleeRoundD. fold mk. fold x1.
  assert (∀ b : bool, let lu := if b then unitD x1 else oppD x1 in
               (0 <? numModels lu) = true →
               let rk := resolvePostCombatMorale rnd lu (originalNumModels lu) mk.2 in
               (mk.2 < cursor (embed g (moraleD rnd b x1)))%nat
               ∧ cursor (embed g (moraleD rnd b x1)) = rk.2
               ∧ log (embed g (moraleD rnd b x1))
                 = logD x1 ++ [LogLostCombat (name lu); moraleEntry rk.1 (name lu)]) as Tested.
  { intros b lu Hlu rk. unfold moraleD. fold lu. rewrite Hlu.
    change (cursorD x1) with mk.2. fold rk.
    destruct (morale_spec rnd lu (originalNumModels lu) mk.2) as (Hk & _).
    simpl in Hk. fold rk in Hk.
    split; [| split].
    - destruct b; simpl; rewrite Hk; destruct (_ && _); lia.
    - by destruct b.
    - destruct b; simpl; by rewrite <- app_assoc. }
  destruct (totalWoundsToAttacker mk.1 <? totalWoundsToDefender mk.1);
    [| destruct (totalWoundsToDefender mk.1 <? totalWoundsToAttacker mk.1)].
  - destruct (0 <? numModels (oppD x1)) eqn:E.
    + apply (Tested false E).
    + unfold moraleD. by rewrite E.
  - destruct (0 <? numModels (unitD x1)) eqn:E.
    + apply (Tested true E).
    + unfold moraleD. by rewrite E.
  - done.
Qed.

Definition meleeGround : Ground :=
  {| others := ∅; armory := {[ 1%positive := sword ]};
     unitLoc := 1%positive; oppLoc := 2%positive |}.

(** The knights and the scribe in contact at the start of a turn. *)
Definition inContact : Duel :=
  {| unitD := withRanges (cloneOf knights [1%positive]); unitArms := [sword];
     oppD := withRanges (cloneOf scribe []); oppArms := [];
     distanceD := 0; logD := []; cursorD := 0 |}.

(** [morale_only_for_surviving_loser] where the knights hit fifteen
    times and the lone scribe, the loser, is left with no models: the
    round ends in the state the kills left, with the 31 dice of the
    melee resolution drawn. *)
Lemma morale_only_for_surviving_loser_witness :
  grounded meleeGround inContact
  ∧ ∃ s', handleMeleeRound fifteenSixes 1%positive 2%positive (embed meleeGround inContact)
          = Some (tt, s')
          ∧ s' = embed meleeGround (meleeKillsD fifteenSixes inContact)
          ∧ cursor s' = 31%nat.
Proof.
  assert (grounded meleeGround inContact) as Hg.
  { split; [done |]. split; reflexivity. }
  split; [exact Hg |].
  destruct (morale_only_for_surviving_loser fifteenSixes meleeGround inContact Hg)
    as (_ & s' & Run & H).
  exists s'. split; [exact Run |].
  assert (s' = embed meleeGround (meleeKillsD fifteenSixes inContact)) as -> by exact H.
  split; reflexivity.
Defined.

(** ** Who acts in a turn *)

(** The log lines with which [unitActs] announces an action: one per
    call. *)
Definition isActionEntry (e : LogEntry) : bool :=
  match e with
  | LogIdles _ | LogCharges _ _ | LogFights _ _ | LogShoots _ _ | LogRushes _ _ => true
  | _ => false
  end.

(** The log line of a resolved melee round. *)
Definition isMeleeEntry (e : LogEntry) : bool :=
  match e with
  | LogMeleeResult _ _ _ _ => true
  | _ => false
  end.

(** The log lines of ranged fire. *)
Definition isRangedEntry (e : LogEntry) : bool :=
  match e with
  | LogShoots _ _ | LogKills _ _ => true
  | _ => false
  end.

Definition countEntries (p : LogEntry → bool) (es : list LogEntry) : nat :=
  length (List.filter p es).

(** [es] holds [a] action lines, [m] melee results and [r] lines of
    ranged fire. *)
Definition tally (es : list LogEntry) (a m r : nat) : Prop :=
  countEntries isActionEntry es = a
  ∧ countEntries isMeleeEntry es = m
  ∧ countEntries isRangedEntry es = r.

Lemma countEntries_app p es es' :
  countEntries p (es ++ es') = (countEntries p es + countEntries p es')%nat.
Proof. unfold countEntries. by rewrite List.filter_app, length_app. Qed.

Lemma tally_app es es' a m r a' m' r' :
  tally es a m r → tally es' a' m' r' →
  tally (es ++ es') (a + a') (m + m') (r + r').
Proof.
  intros (<- & <- & <-) (<- & <- & <-). unfold tally.
  by rewrite !countEntries_app.
Qed.

(** The log of [x'] is that of [x] followed by [es]. *)
Definition logged (x x' : Duel) (es : list LogEntry) : Prop := logD x' = logD x ++ es.

Lemma logged_trans x y z es es' :
  logged x y es → logged y z es' → logged x z (es ++ es').
Proof. unfold logged. intros -> ->. by rewrite app_assoc. Qed.

Section TurnLog.

Variable rnd : nat → Z.

Lemma moraleD_log b x :
  ∃ es, logged x (moraleD rnd b x) es ∧ tally es 0 0 0
        ∧ distanceD (moraleD rnd b x) = distanceD x.
Proof.
  unfold moraleD, logged.
  destruct b; simpl;
    (match goal with |- context [0 <? ?n] => destruct (0 <? n) end;
     [| exists []; by rewrite app_nil_r]);
    destruct (resolvePostCombatMorale rnd _ _ _) as [[] k]; simpl;
    eexists [_; _]; (split; [by rewrite <- app_assoc |]); done.
Qed.

Lemma handleMeleeRoundD_log x :
  ∃ es, logged x (handleMeleeRoundD rnd x) es ∧ tally es 0 1 0
        ∧ distanceD (handleMeleeRoundD rnd x) = distanceD x.
Proof.
  unfold handleMeleeRoundD.
  assert (∃ e, logged x (meleeKillsD rnd x) [e] ∧ tally [e] 0 1 0) as (e & L1 & T1).
  { eexists. split; [reflexivity | done]. }
  repeat match goal with |- context [if ?c then _ else _] => destruct c end.
  - destruct (moraleD_log false (meleeKillsD rnd x)) as (es & L2 & T2 & D2).
    exists ([e] ++ es). split; [by eapply logged_trans |].
    split; [apply (tally_app [e] es 0 1 0 0 0 0); done | by rewrite D2].
  - destruct (moraleD_log true (meleeKillsD rnd x)) as (es & L2 & T2 & D2).
    exists ([e] ++ es). split; [by eapply logged_trans |].
    split; [apply (tally_app [e] es 0 1 0 0 0 0); done | by rewrite D2].
  - exists ([e] ++ [LogDraw]). split; [by eapply logged_trans |].
    split; [apply (tally_app [e] [LogDraw] 0 1 0 0 0 0); done | done].
Qed.

Lemma shootD_log u o x : ∃ es, logged x (shootD rnd u o x) es ∧ tally es 0 0 (length es).
Proof.
  unfold shootD, logged. destruct (firedWeapon u (distanceD x)).
  - eexists [_]. split; [reflexivity | done].
  - exists []. split; [by rewrite app_nil_r | done].
Qed.

(** Every call of [unitActs] logs exactly one action line. *)
Lemma unitActsD_log x :
  ∃ es, logged x (unitActsD rnd x).2 es ∧ countEntries isActionEntry es = 1%nat.
Proof.
  unfold unitActsD, logged.
  destruct (decideAction (viewOfUnit x) (viewOfOpp x) (distanceD x)); simpl.
  - eexists [_]. split; [reflexivity | done].
  - destruct (handleMeleeRoundD_log (say (LogFights (name (unitD x)) (name (oppD x))) x))
      as (es & L & (Ta & _) & _).
    unfold logged in L; simpl in L.
    exists ([LogFights (name (unitD x)) (name (oppD x))] ++ es).
    split; [by rewrite L, <- app_assoc |].
    by rewrite countEntries_app, Ta.
  - set (tx := advanceMoveD (distanceD x) (advanceRange (unitD x)) x).
    assert (logD tx.2 = logD x) as Lt by (subst tx; unfold advanceMoveD; by destruct (_ =? _)).
    destruct (shootD_log (viewOfUnit x) (viewOfOpp x)
                (say (LogShoots (name (unitD x)) tx.1) tx.2)) as (es & L & (Ta & _)).
    unfold logged in L; simpl in L.
    exists ([LogShoots (name (unitD x)) tx.1] ++ es).
    split; [by rewrite L, Lt, <- app_assoc |].
    by rewrite countEntries_app, Ta.
  - destruct (handleMeleeRoundD_log
                (say (LogCharges (name (unitD x)) (name (oppD x))) (setDist 0 x)))
      as (es & L & (Ta & _) & _).
    unfold logged in L; simpl in L.
    exists ([LogCharges (name (unitD x)) (name (oppD x))] ++ es).
    split; [by rewrite L, <- app_assoc |].
    by rewrite countEntries_app, Ta.
  - destruct (shootD_log (viewOfUnit x) (viewOfOpp x)
                (say (LogShoots (name (unitD x)) HoldsAndShoots) x)) as (es & L & (Ta & _)).
    unfold logged in L; simpl in L.
    exists ([LogShoots (name (unitD x)) HoldsAndShoots] ++ es).
    split; [by rewrite L, <- app_assoc |].
    by rewrite countEntries_app, Ta.
  - eexists [_]. split; [reflexivity | done].
Qed.

End TurnLog.

(** The duel from the point of view of the unit that acts first, and
    back. *)
Definition orient (attackerFirst : bool) (x : Duel) : Duel :=
  if attackerFirst then x else swapD x.

Lemma orient_log af x : logD (orient af x) = logD x.
Proof. by destruct af. Qed.

Lemma orient_distance af x : distanceD (orient af x) = distanceD x.
Proof. by destruct af. Qed.

(** C4, as stated, fails in its last sentence: the knights, acting
    first in contact, decide to fight and destroy the lone scribe, and
    the scribe does not act afterwards; the log of the turn holds the
    knights' action and the melee result only. *)
Lemma destroyed_opponent_does_not_act :
  decideAction (viewOfUnit (turnHeadD 1 inContact)) (viewOfOpp (turnHeadD 1 inContact)) 0
  = fight
  ∧ (fst <$> simulateRangedExchangeUntilMelee fifteenSixes 1%positive 2%positive
               (Some 0) (Some true) field)
    = Some {| turnsElapsed := 1; finalDistance := 0; survivingA := 5; survivingB := 0;
              resultLog := [LogTurn 1; LogFights "Knights" "Scribe";
                            LogMeleeResult "Knights" 15 "Scribe" 0] |}.
Proof. split; vm_compute; reflexivity. Qed.

Lemma actInOrderD_log (rnd : nat → Z) y : ∃ es, logged y (actInOrderD rnd y) es.
Proof.
  unfold actInOrderD.
  set (cx := if 0 <? numModels (unitD y) then unitActsD rnd y else (false, y)).
  assert (∃ es, logged y cx.2 es) as (es1 & L1).
  { subst cx. destruct (0 <? numModels (unitD y)); simpl.
    - destruct (unitActsD_log rnd y) as (es & L & _). by exists es.
    - exists []. unfold logged. by rewrite app_nil_r. }
  destruct (_ && _).
  - destruct (unitActsD_log rnd (swapD cx.2)) as (es2 & L2 & _).
    exists (es1 ++ es2). eapply logged_trans; [exact L1 | exact L2].
  - by exists es1.
Qed.

Lemma runTurnD_orient (rnd : nat → Z) af turn x :
  runTurnD rnd af turn x = orient af (actInOrderD rnd (orient af (turnHeadD turn x))).
Proof. unfold runTurnD. by destruct af. Qed.

Lemma unitActsD_charge (rnd : nat → Z) y :
  decideAction (viewOfUnit y) (viewOfOpp y) (distanceD y) = charge →
  unitActsD rnd y
  = (true, handleMeleeRoundD rnd
             (say (LogCharges (name (unitD y)) (name (oppD y))) (setDist 0 y))).
Proof. intros E. unfold unitActsD. by rewrite E. Qed.

Lemma unitActsD_fight (rnd : nat → Z) y :
  decideAction (viewOfUnit y) (viewOfOpp y) (distanceD y) = fight →
  unitActsD rnd y
  = (false, handleMeleeRoundD rnd (say (LogFights (name (unitD y)) (name (oppD y))) y)).
Proof. intros E. unfold unitActsD. by rewrite E. Qed.

(** C4, amended. Let [y] be the duel when the first-acting unit, still
    with a model, comes to act in a turn. If it decides to charge, the
    whole turn is the turn's head followed by its melee round at
    distance 0: the log of the turn holds one action line, the charge,
    one melee result and no line of ranged fire, and the second unit
    changes nothing. If it decides to fight, the second unit acts
    afterwards in the same turn provided it still has a model after
    the melee round, and does not act if it has none. *)
Theorem charge_exclusivity (rnd : nat → Z) (g : Ground) (x : Duel)
    (attackerFirst : bool) (turn : Z) :
  grounded g x →
  let y := orient attackerFirst (turnHeadD turn x) in
  let decision := decideAction (viewOfUnit y) (viewOfOpp y) (distanceD y) in
  0 < numModels (unitD y) →
  ∃ s' es,
    runTurn rnd (unitLoc g) (oppLoc g) attackerFirst turn (embed g x) = Some (tt, s')
    ∧ log s' = logD x ++ LogTurn turn :: es
    ∧ (decision = charge →
         s' = embed g (orient attackerFirst
                (handleMeleeRoundD rnd
                   (say (LogCharges (name (unitD y)) (name (oppD y))) (setDist 0 y))))
         ∧ currentDistance s' = 0
         ∧ (∃ rest, es = LogCharges (name (unitD y)) (name (oppD y)) :: rest)
         ∧ tally es 1 1 0)
    ∧ (decision = fight →
         let y1 := handleMeleeRoundD rnd
                     (say (LogFights (name (unitD y)) (name (oppD y))) y) in
         (0 < numModels (oppD y1) →
            s' = embed g (orient attackerFirst (swapD (unitActsD rnd (swapD y1)).2))
            ∧ countEntries isActionEntry es = 2%nat)
         ∧ (numModels (oppD y1) <= 0 →
            s' = embed g (orient attackerFirst y1)
            ∧ countEntries isActionEntry es = 1%nat)).
Proof.
  intros Hg y decision Halive.
  pose proof (runTurnD_orient rnd attackerFirst turn x) as Eturn. fold y in Eturn.
  assert (logD y = logD x ++ [LogTurn turn]) as Ly by (subst y; by rewrite orient_log).
  destruct (actInOrderD_log rnd y) as (es & Les). unfold logged in Les.
  exists (embed g (runTurnD rnd attackerFirst turn x)), es.
  split; [by apply runTurn_run |].
  rewrite Eturn.
  split; [simpl; by rewrite orient_log, Les, Ly, <- app_assoc |].
  unfold actInOrderD in *.
  destruct (Z.ltb_spec 0 (numModels (unitD y))) as [_ | ?]; [| lia].
  split.
  - intros Ed. rewrite (unitActsD_charge rnd y Ed) in *.
    simpl in Les |- *. rewrite andb_false_r in *.
    destruct (handleMeleeRoundD_log rnd
                (say (LogCharges (name (unitD y)) (name (oppD y))) (setDist 0 y)))
      as (es1 & L1 & T1 & D1).
    unfold logged in L1. simpl in L1, D1.
    rewrite L1, <- app_assoc in Les. apply app_inv_head in Les. subst es.
    split; [done |]. split; [by rewrite orient_distance |].
    split; [by eexists |].
    apply (tally_app [LogCharges (name (unitD y)) (name (oppD y))] es1 1 0 0 0 1 0);
      done.
  - intros Ed. rewrite (unitActsD_fight rnd y Ed) in *.
    destruct (handleMeleeRoundD_log rnd
                (say (LogFights (name (unitD y)) (name (oppD y))) y))
      as (es1 & L1 & (Ta1 & _) & _).
    unfold logged in L1. simpl in L1.
    set (y1 := handleMeleeRoundD rnd
                 (say (LogFights (name (unitD y)) (name (oppD y))) y)) in *.
    simpl in Les |- *. rewrite andb_true_r in *.
    split.
    + intros Hopp. destruct (Z.ltb_spec 0 (numModels (oppD y1))) as [_ | ?]; [| lia].
      split; [done |].
      destruct (unitActsD_log rnd (swapD y1)) as (es2 & L2 & Ta2).
      unfold logged in L2. simpl in L2, Les.
      rewrite L2, L1, <- !app_assoc in Les. apply app_inv_head in Les. subst es.
      by rewrite !countEntries_app, Ta1, Ta2.
    + intros Hopp. destruct (Z.ltb_spec 0 (numModels (oppD y1))) as [? | _]; [lia |].
      split; [done |].
      rewrite L1, <- app_assoc in Les. apply app_inv_head in Les. subst es.
      by rewrite countEntries_app, Ta1.
Qed.

(** [charge_exclusivity] with the knights ten away from the scribe at
    the start of turn 1: they charge, and the turn is theirs alone. *)
Lemma charge_exclusivity_witness :
  grounded meleeGround (setDist 10 inContact)
  ∧ 0 < numModels (unitD (orient true (turnHeadD 1 (setDist 10 inContact))))
  ∧ ∃ s' es,
      runTurn fifteenSixes 1%positive 2%positive true 1
        (embed meleeGround (setDist 10 inContact)) = Some (tt, s')
      ∧ log s' = [] ++ LogTurn 1 :: es
      ∧ currentDistance s' = 0
      ∧ tally es 1 1 0.
Proof.
  assert (grounded meleeGround (setDist 10 inContact)) as Hg.
  { split; [done |]. split; reflexivity. }
  split; [exact Hg |]. split; [simpl; lia |].
  destruct (charge_exclusivity fifteenSixes meleeGround (setDist 10 inContact) true 1 Hg)
    as (s' & es & Run & Hlog & Hc & _); [simpl; lia |].
  destruct Hc as (_ & Hd & _ & Ht); [reflexivity |].
  exists s', es. split; [exact Run |]. split; [exact Hlog |]. split; [exact Hd | exact Ht].
Defined.

(** ** The shot of a hold or an advance *)

(** The distance after the movement of a hold or an advance decided at
    distance [d] by a unit of advance range [a]. *)
Definition distanceAfterMove (decision : Action) (d a : Z) : Z :=
  match decision with
  | advance => if d =? 0 then d + a else Z.max 0 (d - a)
  | _ => d
  end.

(** C1, amended. In a hold or an advance the acting unit, after any
    movement, fires the first weapon, in the order of its list, whose
    range is above 0 and at least the updated distance, whenever some
    ranged weapon reaches that distance; the kills are taken from the
    opponent and logged under that weapon's name. It fires nothing,
    draws no die and changes no unit when no ranged weapon reaches. *)
Theorem hold_advance_fires_first_in_reach (rnd : nat → Z) (g : Ground) (x : Duel) :
  grounded g x →
  let u := viewOfUnit x in
  let o := viewOfOpp x in
  let decision := decideAction u o (distanceD x) in
  decision = hold ∨ decision = advance →
  let d := distanceAfterMove decision (distanceD x) (advanceRange u) in
  ∃ s', unitActs rnd (unitLoc g) (oppLoc g) (embed g x) = Some (false, s')
        ∧ currentDistance s' = d
        ∧ match firedWeapon u d with
          | Some w =>
              (∃ i, weapons u !! i = Some w ∧ reaches d w
                    ∧ ∀ j w', (j < i)%nat → weapons u !! j = Some w' → ¬ reaches d w')
              ∧ let rk := rangedAttack rnd w u (numModels u) o d (cursorD x) in
                let kills := Z.min (numModels o)
                               (totalWounds rk.1 `div` orDefault (toughValue o) 1) in
                cursor s' = rk.2
                ∧ last (log s') = Some (LogKills (wname w) kills)
                ∧ unitStore s' !! oppLoc g
                  = Some (with_numModels (numModels (oppD x) - kills) (oppD x))
          | None =>
              (∀ w', w' ∈ weapons u → ¬ reaches d w')
              ∧ cursor s' = cursorD x
              ∧ unitStore s' = unitStore (embed g x)
          end.
Proof.
  intros Hg u o decision Hd d.
  pose proof Hg as (Hne & _ & _).
  exists (embed g (unitActsD rnd x).2).
  assert ((unitActsD rnd x).1 = false ∧
          ∃ t x1, distanceD x1 = d ∧ unitD x1 = unitD x ∧ oppD x1 = oppD x
                  ∧ cursorD x1 = cursorD x
                  ∧ (unitActsD rnd x).2 = shootD rnd u o (say (LogShoots (name u) t) x1))
    as (Ec & t & x1 & Hd1 & Hu1 & Ho1 & Hk1 & Ex).
  { unfold unitActsD. fold u o decision. subst d.
    destruct Hd as [-> | ->]; simpl; (split; [done |]).
    - by exists HoldsAndShoots, x.
    - unfold advanceMoveD. destruct (distanceD x =? 0); simpl.
      + by exists (RetreatsAndShoots (advanceRange (unitD x))),
          (setDist (distanceD x + advanceRange (unitD x)) x).
      + by exists (AdvancesAndShoots (advanceRange (unitD x))),
          (setDist (Z.max 0 (distanceD x - advanceRange (unitD x))) x). }
  split; [rewrite <- Ec; by apply unitActs_run |].
  rewrite Ex. unfold shootD. simpl distanceD. rewrite Hd1.
  pose proof (firedWeapon_first u d) as Hfirst.
  destruct (firedWeapon u d) as [w |].
  - simpl. split; [done |]. split; [done |]. rewrite Hk1.
    split; [done |]. split; [by rewrite last_snoc |].
    rewrite lookup_insert_ne, lookup_insert_eq by done. by rewrite Ho1.
  - simpl. split; [done |]. split; [done |]. split; [done |]. by rewrite Hu1, Ho1.
Qed.

(** A store with a pistol at 1 and a rifle at 2. *)
Definition gunGround : Ground :=
  {| others := ∅;
     armory := <[1%positive :=
                   {| wname := "Pistol"; count := 5; Range := 12; Attacks := 1; AP := 0;
                      Furious := false; Predator := false; Deadly := 0 |}]>
               {[ 2%positive :=
                   {| wname := "Rifle"; count := 5; Range := 24; Attacks := 1; AP := 0;
                      Furious := false; Predator := false; Deadly := 0 |} ]};
     unitLoc := 1%positive; oppLoc := 2%positive |}.

(** The knights, carrying the rifle before the pistol, 14 away from
    the scribe. *)
Definition gunLine : Duel :=
  {| unitD := withRanges (cloneOf knights [2%positive; 1%positive]);
     unitArms :=
       [ {| wname := "Rifle"; count := 5; Range := 24; Attacks := 1; AP := 0;
            Furious := false; Predator := false; Deadly := 0 |};
         {| wname := "Pistol"; count := 5; Range := 12; Attacks := 1; AP := 0;
            Furious := false; Predator := false; Deadly := 0 |} ];
     oppD := withRanges (cloneOf scribe []); oppArms := [];
     distanceD := 14; logD := []; cursorD := 0 |}.

(** [hold_advance_fires_first_in_reach] on the gun line: the knights
    hold and fire the rifle; five dice, none hits. *)
Lemma hold_advance_fires_first_in_reach_witness :
  grounded gunGround gunLine
  ∧ decideAction (viewOfUnit gunLine) (viewOfOpp gunLine) 14 = hold
  ∧ ∃ s', unitActs (fun _ => 0) 1%positive 2%positive (embed gunGround gunLine)
          = Some (false, s')
          ∧ currentDistance s' = 14
          ∧ last (log s') = Some (LogKills "Rifle" 0).
Proof.
  assert (grounded gunGround gunLine) as Hg.
  { split; [done |]. split; reflexivity. }
  split; [exact Hg |]. split; [reflexivity |].
  destruct (hold_advance_fires_first_in_reach (fun _ => 0) gunGround gunLine Hg)
    as (s' & Run & Hd & Hw); [left; reflexivity |].
  exists s'. split; [exact Run |]. split; [exact Hd |].
  destruct Hw as (_ & _ & Hl & _). exact Hl.
Defined.

(** * Further properties of the resolver *)

Section MoreDice.

Variable rnd : nat → Z.

Lemma hitRollStep_target target target' acc acc' roll :
  target <= target' →
  let r := hitRollStep target acc roll in
  let r' := hitRollStep target' acc' roll in
  successes r' - successes acc' <= successes r - successes acc
  ∧ sixes r' - sixes acc' = sixes r - sixes acc.
Proof.
  intros Ht. unfold hitRollStep.
  destruct (roll =? 1); [simpl; lia |].
  destruct (roll =? 6); [simpl; lia |].
  destruct (Z.leb_spec target roll), (Z.leb_spec target' roll); simpl; lia.
Qed.

Lemma hitRollLoop_target n target target' acc acc' k :
  target <= target' →
  let r := (hitRollLoop rnd n target acc k).1 in
  let r' := (hitRollLoop rnd n target' acc' k).1 in
  successes r' - successes acc' <= successes r - successes acc
  ∧ sixes r' - sixes acc' = sixes r - sixes acc.
Proof.
  intros Ht. revert acc acc' k.
  induction n as [| n IH]; intros acc acc' k; simpl; [lia |].
  unfold rand_bind; simpl.
  pose proof (hitRollStep_target target target' acc acc' (rnd k mod 6 + 1) Ht) as Hs.
  pose proof (IH (hitRollStep target acc (rnd k mod 6 + 1))
                 (hitRollStep target' acc' (rnd k mod 6 + 1)) (S k)) as Hn.
  simpl in Hs, Hn. lia.
Qed.

Lemma defenseRollLoop_as_hits n target acc hacc k :
  defenseRollLoop rnd n target acc k
  = (acc + successes (hitRollLoop rnd n target hacc k).1 - successes hacc,
     (hitRollLoop rnd n target hacc k).2).
Proof.
  revert acc hacc k. induction n as [| n IH]; intros acc hacc k; simpl.
  - unfold rand_ret. f_equal. lia.
  - unfold rand_bind; simpl.
    rewrite (IH _ (hitRollStep target hacc (rnd k mod 6 + 1))). f_equal.
    unfold defenseRollStep, hitRollStep.
    destruct (_ =? 1); [lia |]. destruct (_ =? 6); [simpl; lia |].
    destruct (_ <=? _); simpl; lia.
Qed.

(** X1. A batch of hit rolls draws exactly [numDice] dice (none for a
    count below one) and returns counts with
    0 <= sixes <= successes <= number of dice. *)
Theorem simulateHitRolls_counts (numDice q m : Z) (k : nat) :
  let r := simulateHitRolls rnd numDice q m k in
  0 <= sixes r.1 <= successes r.1
  ∧ successes r.1 <= Z.max 0 numDice
  ∧ r.2 = (Z.to_nat numDice + k)%nat.
Proof.
  pose proof (simulateHitRolls_bounds rnd numDice q m k) as H. simpl in H.
  simpl. split; [lia |]. split; [lia |].
  unfold simulateHitRolls. apply hitRollLoop_cursor.
Qed.

(** X2. On the same dice a better (lower) quality never scores fewer
    successes, and the number of natural sixes does not depend on the
    quality or the modifier at all. *)
Theorem simulateHitRolls_quality_monotone (numDice q q' m m' : Z) (k : nat) :
  q - m <= q' - m' →
  let r := (simulateHitRolls rnd numDice q m k).1 in
  let r' := (simulateHitRolls rnd numDice q' m' k).1 in
  successes r' <= successes r ∧ sixes r' = sixes r.
Proof.
  intros Ht. unfold simulateHitRolls.
  pose proof (hitRollLoop_target (Z.to_nat numDice) (q - m) (q' - m')
                {| successes := 0; sixes := 0 |} {| successes := 0; sixes := 0 |} k Ht) as H.
  simpl in H. simpl. lia.
Qed.

(** X3. The save roll is the hit roll: rolling [numDice] saves against
    [defense] with penetration [ap] returns the successes of
    [simulateHitRolls(numDice, defense, -ap)] on the same dice, and
    draws the same number of dice. *)
Theorem simulateDefenseRolls_as_hit_rolls (numDice defense ap : Z) (k : nat) :
  simulateDefenseRolls rnd numDice defense ap k
  = (successes (simulateHitRolls rnd numDice defense (- ap) k).1,
     (simulateHitRolls rnd numDice defense (- ap) k).2).
Proof.
  unfold simulateDefenseRolls, simulateHitRolls.
  replace (defense - - ap) with (defense + ap) by lia.
  rewrite (defenseRollLoop_as_hits _ _ 0 {| successes := 0; sixes := 0 |}).
  simpl. f_equal. lia.
Qed.

(** X4. [calculateHits] passes the weapon's AP through, returns a hit
    count between 0 and the dice rolled times 1, plus 1 for Furious,
    plus 1 for Predator, and rolls the Predator bonus dice once only:
    it draws the [numModels * Attacks] dice and at most as many again,
    exactly that many without Predator. *)
Theorem calculateHits_bounds {W} (w : Weapon) (u : UnitOf W) (n : Z) (k : nat) :
  let h := calculateHits rnd w u n k in
  let dice := Z.max 0 (n * Attacks w) in
  ap h.1 = AP w
  ∧ 0 <= hits h.1
      <= dice * (1 + (if Furious w then 1 else 0) + (if Predator w then 1 else 0))
  ∧ (Z.to_nat dice + k <= h.2 <= 2 * Z.to_nat dice + k)%nat
  ∧ (Predator w = false → h.2 = (Z.to_nat dice + k)%nat).
Proof.
  unfold calculateHits, rand_bind. simpl.
  pose proof (simulateHitRolls_bounds rnd (n * Attacks w) (quality u) (Modifier u) k) as H1.
  pose proof (hitRollLoop_cursor rnd (Z.to_nat (n * Attacks w)) (quality u - Modifier u)
                {| successes := 0; sixes := 0 |} k) as C1.
  fold (simulateHitRolls rnd (n * Attacks w) (quality u) (Modifier u) k) in C1.
  destruct (simulateHitRolls rnd (n * Attacks w) (quality u) (Modifier u) k)
    as [r k1]; simpl in H1, C1.
  destruct (Predator w); simpl.
  - destruct (Z.ltb_spec 0 (sixes r)).
    + pose proof (simulateHitRolls_bounds rnd (sixes r) (quality u) (Modifier u) k1) as H2.
      pose proof (hitRollLoop_cursor rnd (Z.to_nat (sixes r)) (quality u - Modifier u)
                    {| successes := 0; sixes := 0 |} k1) as C2.
      fold (simulateHitRolls rnd (sixes r) (quality u) (Modifier u) k1) in C2.
      destruct (simulateHitRolls rnd (sixes r) (quality u) (Modifier u) k1)
        as [r2 k2]; simpl in H2, C2. simpl.
      split; [done |]. split; [destruct (Furious w); lia |].
      split; [lia | done].
    + simpl. split; [done |]. split; [destruct (Furious w); lia |].
      split; [lia | done].
  - split; [done |]. split; [destruct (Furious w); lia |]. split; [lia | intros _; lia].
Qed.

(** X5. A ranged attack at a distance beyond the weapon's range is
    reported out of range with no wounds, and no die is drawn for it. *)
Theorem rangedAttack_out_of_range {W} (w : Weapon) (u t : UnitOf W) (n d : Z) (k : nat) :
  Range w < d →
  rangedAttack rnd w u n t d k = ({| inRange := false; totalWounds := 0 |}, k).
Proof.
  intros Hd. unfold rangedAttack.
  destruct (Z.ltb_spec (Range w) d); [done | lia].
Qed.

(** X6. A weapon without tags, as the parser builds it, never inflicts
    more wounds than it rolls dice, and never a negative number. *)
Theorem rangedAttack_plain_weapon_bound {W} (w : Weapon) (u t : UnitOf W) (n d : Z)
    (k : nat) :
  Furious w = false → Predator w = false → Deadly w = 0 →
  0 <= totalWounds (rangedAttack rnd w u n t d k).1 <= Z.max 0 (n * Attacks w).
Proof.
  intros Hf Hp Hd. unfold rangedAttack.
  destruct (Range w <? d); [simpl; lia |].
  unfold rand_bind.
  pose proof (calculateHits_nonneg rnd w u n k) as Hh.
  assert (hits (calculateHits rnd w u n k).1 <= Z.max 0 (n * Attacks w)) as Hb.
  { unfold calculateHits, rand_bind. rewrite Hf, Hp. simpl.
    pose proof (simulateHitRolls_bounds rnd (n * Attacks w) (quality u) (Modifier u) k) as H.
    destruct (simulateHitRolls rnd (n * Attacks w) (quality u) (Modifier u) k); simpl in *.
    lia. }
  destruct (calculateHits rnd w u n k) as [h k1]; simpl in Hh, Hb.
  pose proof (simulateDefenseRolls_bounds rnd (hits h) (defense t) (ap h) k1) as Hs.
  destruct (simulateDefenseRolls rnd (hits h) (defense t) (ap h) k1) as [sv k2].
  simpl in *. unfold applyDeadly. rewrite Hd. simpl. lia.
Qed.

End MoreDice.

(** [simulateHitRolls_quality_monotone] on six dice 1..6, quality 4
    against quality 5. *)
Lemma simulateHitRolls_quality_monotone_witness :
  4 - 0 <= 5 - 0
  ∧ successes (simulateHitRolls (fun k => Z.of_nat k) 6 5 0 0%nat).1
    <= successes (simulateHitRolls (fun k => Z.of_nat k) 6 4 0 0%nat).1.
Proof.
  split; [lia |].
  apply (simulateHitRolls_quality_monotone (fun k => Z.of_nat k) 6 4 5 0 0 0%nat). lia.
Defined.

(** [rangedAttack_out_of_range] with the lance (range 18) at distance
    19. *)
Lemma rangedAttack_out_of_range_witness :
  Range lance < 19
  ∧ rangedAttack hitsThenFails lance tiredVeterans 3 tiredVeterans 19 0%nat
    = ({| inRange := false; totalWounds := 0 |}, 0%nat).
Proof.
  split; [simpl; lia |].
  apply (rangedAttack_out_of_range hitsThenFails lance tiredVeterans tiredVeterans 3 19 0%nat).
  simpl; lia.
Defined.

(** [rangedAttack_plain_weapon_bound] with five swords' worth of dice. *)
Lemma rangedAttack_plain_weapon_bound_witness :
  Furious sword = false ∧ Predator sword = false ∧ Deadly sword = 0
  ∧ 0 <= totalWounds (rangedAttack hitsThenFails sword tiredVeterans 5 tiredVeterans 0 0%nat).1
      <= Z.max 0 (5 * Attacks sword).
Proof.
  split; [reflexivity |]. split; [reflexivity |]. split; [reflexivity |].
  apply (rangedAttack_plain_weapon_bound hitsThenFails sword tiredVeterans tiredVeterans
           5 0 0%nat); reflexivity.
Defined.

(** * Further properties of the decision procedure *)

(** X7. The weapon a unit fights with in melee is the first weapon of
    its list with range 0; a unit with no such weapon fights with the
    baseline of one attack, AP 0 and no tag. *)
Theorem meleeWeapon_first_or_baseline (u : Unit) :
  (∃ i, weapons u !! i = Some (meleeWeapon u) ∧ Range (meleeWeapon u) = 0
        ∧ ∀ j w, (j < i)%nat → weapons u !! j = Some w → Range w ≠ 0)
  ∨ ((∀ w, w ∈ weapons u → Range w ≠ 0)
     ∧ Attacks (meleeWeapon u) = 1 ∧ AP (meleeWeapon u) = 0
     ∧ Furious (meleeWeapon u) = false ∧ Predator (meleeWeapon u) = false
     ∧ Deadly (meleeWeapon u) = 0).
Proof.
  unfold meleeWeapon.
  pose proof (find_first (fun w => Range w =? 0) (weapons u)) as H.
  destruct (find _ _) as [w |]; simpl.
  - left. destruct H as (i & Hi & Hw & Hbefore). exists i.
    split; [done |]. split; [by apply Z.eqb_eq |].
    intros j w' Hj Hw'. apply Z.eqb_neq. by apply (Hbefore j).
  - right. split; [| done]. intros w Hw. apply Z.eqb_neq. by apply H.
Qed.

(** X8. [decideAction] idles exactly when the unit is shaken; a unit
    that is not shaken fights or backs off ("advance") when the
    distance is 0 and charges, holds, advances or rushes when it is
    not, so it never fights at a distance and never charges, holds or
    rushes in contact. *)
Theorem decideAction_by_situation (u o : Unit) (d : Z) :
  (decideAction u o d = idle ↔ shaken u = true)
  ∧ (shaken u = false → d = 0 →
     decideAction u o d = fight ∨ decideAction u o d = advance)
  ∧ (shaken u = false → d ≠ 0 →
     decideAction u o d = charge ∨ decideAction u o d = hold
     ∨ decideAction u o d = advance ∨ decideAction u o d = rush).
Proof.
  unfold decideAction. destruct (shaken u).
  - split; [done |]. split; done.
  - destruct (Z.eqb_spec d 0).
    + split; [| split; [| done]].
      * destruct (Qgtb _ _); split; done.
      * intros _ _. destruct (Qgtb _ _); [by right | by left].
    + assert (∀ a : Action, a = charge ∨ a = hold ∨ a = advance ∨ a = rush → a ≠ idle)
        as Hne by (intros a [-> | [-> | [-> | ->]]]; done).
      match goal with |- (?a = idle ↔ _) ∧ _ =>
        assert (a = charge ∨ a = hold ∨ a = advance ∨ a = rush) as Hcases end.
      { destruct (d <=? _); [by left |].
        destruct (find _ _) as [w |].
        - destruct (d <=? Range w); [right; by left |].
          destruct (d <=? _); [right; right; by left | right; right; by right].
        - right; right; by right. }
      split; [split; [intros E; by apply Hne in Hcases | done] |].
      split; [done | by intros _ _].
Qed.

(** [decideAction_by_situation], its two conditional parts, at the
    veterans in contact and 30 away. *)
Lemma decideAction_by_situation_witness :
  shaken tiredVeterans = false
  ∧ (decideAction tiredVeterans tiredVeterans 0 = fight
     ∨ decideAction tiredVeterans tiredVeterans 0 = advance)
  ∧ (decideAction tiredVeterans tiredVeterans 30 = charge
     ∨ decideAction tiredVeterans tiredVeterans 30 = hold
     ∨ decideAction tiredVeterans tiredVeterans 30 = advance
     ∨ decideAction tiredVeterans tiredVeterans 30 = rush).
Proof.
  destruct (decideAction_by_situation tiredVeterans tiredVeterans 0) as (_ & H0 & _).
  destruct (decideAction_by_situation tiredVeterans tiredVeterans 30) as (_ & _ & H30).
  split; [reflexivity |].
  split; [apply H0; reflexivity | apply H30; [reflexivity | lia]].
Defined.

(** X9. Away from contact a unit that is not shaken and carries no
    ranged weapon only ever charges or rushes: it charges iff the
    distance is within its charge range (12 when it has none), and
    rushes otherwise. *)
Theorem decideAction_without_ranged_weapon (u o : Unit) (d : Z) :
  shaken u = false → d ≠ 0 →
  (∀ w, w ∈ weapons u → Range w <= 0) →
  decideAction u o d = (if d <=? orDefault (chargeRange u) 12 then charge else rush).
Proof.
  intros Hs Hd Hw. rewrite decideAction_apart by done.
  destruct (d <=? _); [done |].
  pose proof (find_first (fun w => 0 <? Range w) (weapons u)) as H.
  destruct (find _ _) as [w |]; [| done].
  destruct H as (i & Hi & Hr & _). apply Z.ltb_lt in Hr.
  assert (Range w <= 0) by (apply Hw; by eapply list_elem_of_lookup_2). lia.
Qed.

(** [decideAction_without_ranged_weapon] at the veterans, who carry a
    sword only, 30 away: they rush. *)
Lemma decideAction_without_ranged_weapon_witness :
  shaken tiredVeterans = false ∧ 30 ≠ 0
  ∧ decideAction tiredVeterans tiredVeterans 30 = rush.
Proof.
  split; [reflexivity |]. split; [lia |].
  rewrite (decideAction_without_ranged_weapon tiredVeterans tiredVeterans 30);
    [reflexivity | reflexivity | lia |].
  intros w Hw. apply list_elem_of_In in Hw. simpl in Hw.
  destruct Hw as [<- | []]. simpl. lia.
Defined.

(** X10. A unit that is not shaken and is in contact with a unit of the
    same stats, weapons and fatigue expects to take exactly what it
    deals and therefore fights: a tie of the two estimates is resolved
    for fighting. *)
Theorem decideAction_mirror_fights (u o : Unit) :
  shaken u = false →
  numModels o = numModels u → quality o = quality u → defense o = defense u →
  weapons o = weapons u →
  hasFoughtInMeleeThisTurn o = hasFoughtInMeleeThisTurn u →
  decideAction u o 0 = fight.
Proof.
  intros Hs Hn Hq Hd Hw Hf. unfold decideAction. rewrite Hs. simpl.
  unfold estimateMeleeEffectiveness, meleeWeapon, effectiveQuality; simpl.
  rewrite Hn, Hq, Hd, Hw, Hf.
  unfold Qgtb. rewrite (proj2 (Qle_bool_iff _ _)); [done |]. apply Qle_refl.
Qed.

(** [decideAction_mirror_fights] at the knights' clone facing
    itself. *)
Lemma decideAction_mirror_fights_witness :
  shaken (viewOfUnit inContact) = false
  ∧ decideAction (viewOfUnit inContact) (viewOfUnit inContact) 0 = fight.
Proof.
  split; [reflexivity |].
  apply (decideAction_mirror_fights (viewOfUnit inContact) (viewOfUnit inContact));
    reflexivity.
Defined.

(** * Further properties of the engagement *)

Lemma frozen_more_fields u u' :
  frozen u' = frozen u →
  quality u' = quality u ∧ defense u' = defense u ∧ Modifier u' = Modifier u
  ∧ specialRules u' = specialRules u ∧ chargeRange u' = chargeRange u
  ∧ points u' = points u.
Proof.
  intros H.
  repeat split;
    [ apply (f_equal quality) in H | apply (f_equal defense) in H
    | apply (f_equal Modifier) in H | apply (f_equal specialRules) in H
    | apply (f_equal chargeRange) in H | apply (f_equal points) in H ]; exact H.
Qed.

(** A run of the simulator is a number [T] of whole turns of the loop
    on the duel of the two clones. *)
Lemma simulate_turns (rnd : nat → Z) (unitA unitB : loc) (startingDistance : option Z)
    (attackerFirst : option bool) (s : Sim) ua ub wsA wsB :
  validInput s unitA unitB ua ub wsA wsB →
  ∃ g lsA lsB T,
    let x0 := startDuel ua lsA wsA ub lsB wsB (default 24 startingDistance) (cursor s) in
    let xT := turnsFrom rnd (default true attackerFirst) T 1 x0 in
    simulateRangedExchangeUntilMelee rnd unitA unitB startingDistance attackerFirst s
    = Some (resultOf (1 + Z.of_nat T, xT), embed g xT)
    ∧ (T <= 4)%nat
    ∧ (∀ n, (n < T)%nat →
         anyDestroyed (turnsFrom rnd (default true attackerFirst) n 1 x0) = false)
    ∧ (T = 4%nat ∨ anyDestroyed xT = true)
    ∧ others g = unitStore s
    ∧ unitLoc g ≠ oppLoc g
    ∧ unitStore s !! unitLoc g = None
    ∧ unitStore s !! oppLoc g = None
    ∧ sameKit x0 xT.
Proof.
  intros Hv.
  destruct (simulate_run rnd unitA unitB startingDistance attackerFirst s
              ua ub wsA wsB Hv) as (g & lsA & lsB & Run & Ho & _ & FA & FB & Hg).
  cbv zeta in Run.
  destruct (turnLoopD_stops rnd (default true attackerFirst) 4 1
              (startDuel ua lsA wsA ub lsB wsB (default 24 startingDistance) (cursor s)))
    as (T & HT & Loop & Alive & Stop).
  rewrite Loop in Run.
  exists g, lsA, lsB, T. cbv zeta.
  split; [exact Run |]. split; [done |]. split; [done |]. split; [done |].
  split; [done |]. split; [by destruct Hg |]. split; [done |]. split; [done |].
  apply turnsFrom_steady.
Qed.

(** X11. On valid input the store after a run is the caller's store
    with exactly two unit objects added at new references, the clones.
    The counts returned are theirs. Each clone still has the name,
    quality, defense, toughness and rules of the unit it was cloned
    from; its [originalNumModels] is that unit's [numModels] at the
    call, whatever happened to the clone since; its advance range is
    8, 4 or 6 for Fast, Slow or neither and its charge range twice
    that. *)
Theorem simulate_adds_two_clones (rnd : nat → Z) (unitA unitB : loc)
    (startingDistance : option Z) (attackerFirst : option bool) (s : Sim)
    (ua ub : UnitObj) (wsA wsB : list Weapon) :
  validInput s unitA unitB ua ub wsA wsB →
  let cloned (u c : UnitObj) :=
    name c = name u ∧ quality c = quality u ∧ defense c = defense u
    ∧ toughValue c = toughValue u ∧ specialRules c = specialRules u
    ∧ originalNumModels c = numModels u
    ∧ advanceRange c = moveAllowance u 8 4 6
    ∧ chargeRange c = 2 * advanceRange c in
  ∃ r s' la ld ca cd,
    simulateRangedExchangeUntilMelee rnd unitA unitB startingDistance attackerFirst s
    = Some (r, s')
    ∧ la ≠ ld ∧ unitStore s !! la = None ∧ unitStore s !! ld = None
    ∧ unitStore s' = <[la := ca]> (<[ld := cd]> (unitStore s))
    ∧ survivingA r = numModels ca ∧ survivingB r = numModels cd
    ∧ cloned ua ca ∧ cloned ub cd.
Proof.
  intros Hv cloned.
  destruct (simulate_turns rnd unitA unitB startingDistance attackerFirst s
              ua ub wsA wsB Hv)
    as (g & lsA & lsB & T & Run & _ & _ & _ & Ho & Hne & FA & FB & K).
  cbv zeta in Run, K. destruct K as (K1 & _ & K2 & _).
  eexists _, _, (unitLoc g), (oppLoc g), _, _.
  split; [exact Run |]. split; [done |]. split; [done |]. split; [done |].
  split; [simpl; by rewrite Ho |]. split; [done |]. split; [done |].
  assert (∀ (u : UnitObj) ls c, frozen c = frozen (withRanges (cloneOf u ls)) → cloned u c)
    as Hc.
  { intros u ls c Hf. subst cloned.
    destruct (frozen_fields _ _ Hf) as (E1 & E2 & E3 & _ & E5).
    destruct (frozen_more_fields _ _ Hf) as (E6 & E7 & _ & E9 & E10 & _).
    simpl in *. rewrite E10, E3.
    split; [done |]. split; [done |]. split; [done |]. split; [done |].
    split; [done |]. split; [done |]. split; [done |].
    unfold moveAllowance; simpl.
    destruct (includes "Fast" _); [done |]. by destruct (includes "Slow" _). }
  split; [exact (Hc ua lsA _ K1) | exact (Hc ub lsB _ K2)].
Qed.

(** [simulate_adds_two_clones] on the field. *)
Lemma simulate_adds_two_clones_witness :
  validInput field 1%positive 2%positive knights scribe [sword] []
  ∧ ∃ r s' la ld ca cd,
      simulateRangedExchangeUntilMelee fifteenSixes 1%positive 2%positive
        (Some 0) (Some true) field = Some (r, s')
      ∧ unitStore s' = <[la := ca]> (<[ld := cd]> (unitStore field))
      ∧ originalNumModels ca = numModels knights
      ∧ originalNumModels cd = numModels scribe.
Proof.
  split; [repeat split; reflexivity |].
  destruct (simulate_adds_two_clones fifteenSixes 1%positive 2%positive (Some 0) (Some true)
              field knights scribe [sword] [])
    as (r & s' & la & ld & ca & cd & Run & _ & _ & _ & Hs & _ & _ & HA & HB);
    [repeat split; reflexivity |].
  exists r, s', la, ld, ca, cd.
  split; [exact Run |]. split; [exact Hs |].
  split; [apply HA | apply HB].
Defined.

(** X12. On valid input no turn is played, [turnsElapsed] is 0, exactly
    when one of the caller's units has no model; the log is then empty
    and the distance returned is the starting distance. *)
Theorem simulate_no_turn_iff (rnd : nat → Z) (unitA unitB : loc)
    (startingDistance : option Z) (attackerFirst : option bool) (s : Sim)
    (ua ub : UnitObj) (wsA wsB : list Weapon) :
  validInput s unitA unitB ua ub wsA wsB →
  ∃ r s',
    simulateRangedExchangeUntilMelee rnd unitA unitB startingDistance attackerFirst s
    = Some (r, s')
    ∧ (turnsElapsed r = 0 ↔ numModels ua <= 0 ∨ numModels ub <= 0)
    ∧ (turnsElapsed r = 0 →
       resultLog r = [] ∧ finalDistance r = default 24 startingDistance
       ∧ survivingA r = numModels ua ∧ survivingB r = numModels ub).
Proof.
  intros Hv.
  destruct (simulate_turns rnd unitA unitB startingDistance attackerFirst s
              ua ub wsA wsB Hv)
    as (g & lsA & lsB & T & Run & HT & Alive & Stop & _).
  cbv zeta in Run, Alive, Stop.
  eexists _, _. split; [exact Run |]. simpl.
  assert (∀ x : Duel, anyDestroyed x = true ↔ numModels (unitD x) <= 0 ∨ numModels (oppD x) <= 0)
    as Hdead.
  { intros x. unfold anyDestroyed. rewrite orb_true_iff, !Z.leb_le. done. }
  split; [split |].
  - intros HT0. assert (T = 0%nat) as -> by lia.
    destruct Stop as [? | Stop]; [lia |]. by apply Hdead in Stop.
  - intros Hd. destruct T as [| T]; [lia |].
    pose proof (Alive 0%nat ltac:(lia)) as Ha. simpl in Ha.
    match type of Ha with anyDestroyed ?x = false =>
      assert (anyDestroyed x = true) as Hb by (apply Hdead; simpl; exact Hd) end.
    congruence.
  - intros HT0. assert (T = 0%nat) as -> by lia. done.
Qed.

(** [simulate_no_turn_iff] on the field of the fallen. *)
Lemma simulate_no_turn_iff_witness :
  validInput fieldOfTheFallen 1%positive 2%positive knights (with_numModels 0 scribe)
    [sword] []
  ∧ ∃ r s',
      simulateRangedExchangeUntilMelee fifteenSixes 1%positive 2%positive
        (Some 9) (Some true) fieldOfTheFallen = Some (r, s')
      ∧ turnsElapsed r = 0 ∧ resultLog r = [] ∧ finalDistance r = 9.
Proof.
  split; [repeat split; reflexivity |].
  destruct (simulate_no_turn_iff fifteenSixes 1%positive 2%positive (Some 9) (Some true)
              fieldOfTheFallen knights (with_numModels 0 scribe) [sword] [])
    as (r & s' & Run & Hiff & H0); [repeat split; reflexivity |].
  assert (turnsElapsed r = 0) as E by (apply Hiff; right; simpl; lia).
  exists r, s'. split; [exact Run |]. split; [exact E |].
  destruct (H0 E) as (Hl & Hd & _). split; [exact Hl | exact Hd].
Defined.

(** X13. On valid input an engagement that returns both units with a
    model left was played to the end: [turnsElapsed] is 4. *)
Theorem simulate_survivors_played_four_turns (rnd : nat → Z) (unitA unitB : loc)
    (startingDistance : option Z) (attackerFirst : option bool) (s : Sim)
    (ua ub : UnitObj) (wsA wsB : list Weapon) :
  validInput s unitA unitB ua ub wsA wsB →
  ∃ r s',
    simulateRangedExchangeUntilMelee rnd unitA unitB startingDistance attackerFirst s
    = Some (r, s')
    ∧ 0 <= turnsElapsed r <= 4
    ∧ (0 < survivingA r → 0 < survivingB r → turnsElapsed r = 4).
Proof.
  intros Hv.
  destruct (simulate_turns rnd unitA unitB startingDistance attackerFirst s
              ua ub wsA wsB Hv)
    as (g & lsA & lsB & T & Run & HT & _ & Stop & _).
  cbv zeta in Run, Stop.
  eexists _, _. split; [exact Run |]. simpl. split; [lia |].
  intros HA HB. destruct Stop as [-> | Stop]; [done |].
  unfold anyDestroyed in Stop. apply orb_true_iff in Stop.
  rewrite !Z.leb_le in Stop. lia.
Qed.

(** [simulate_survivors_played_four_turns] on the field. *)
Lemma simulate_survivors_played_four_turns_witness :
  validInput field 1%positive 2%positive knights scribe [sword] []
  ∧ ∃ r s',
      simulateRangedExchangeUntilMelee (fun _ => 0) 1%positive 2%positive
        (Some 0) (Some true) field = Some (r, s')
      ∧ 0 <= turnsElapsed r <= 4.
Proof.
  split; [repeat split; reflexivity |].
  destruct (simulate_survivors_played_four_turns (fun _ => 0) 1%positive 2%positive
              (Some 0) (Some true) field knights scribe [sword] [])
    as (r & s' & Run & Hb & _); [repeat split; reflexivity |].
  exists r, s'. split; [exact Run | exact Hb].
Defined.

Lemma moraleD_flags (rnd : nat → Z) b x :
  hasFoughtInMeleeThisTurn (unitD (moraleD rnd b x)) = hasFoughtInMeleeThisTurn (unitD x)
  ∧ hasFoughtInMeleeThisTurn (oppD (moraleD rnd b x)) = hasFoughtInMeleeThisTurn (oppD x).
Proof.
  unfold moraleD.
  destruct b; simpl;
    (match goal with |- context [0 <? ?n] => destruct (0 <? n) end; [| done]);
    by destruct (resolvePostCombatMorale rnd _ _ _) as [[] k].
Qed.

(** X14. Whatever its outcome, a melee round leaves both units marked
    as having fought this turn, so that each would fight a further
    round of the turn at quality 6; it moves nobody and touches no
    other unit and no weapon. *)
Theorem melee_round_tires_both (rnd : nat → Z) (g : Ground) (x : Duel) :
  grounded g x →
  ∃ s' c1 c2,
    handleMeleeRound rnd (unitLoc g) (oppLoc g) (embed g x) = Some (tt, s')
    ∧ unitStore s' !! unitLoc g = Some c1 ∧ unitStore s' !! oppLoc g = Some c2
    ∧ hasFoughtInMeleeThisTurn c1 = true ∧ hasFoughtInMeleeThisTurn c2 = true
    ∧ effectiveQuality c1 = 6 ∧ effectiveQuality c2 = 6
    ∧ currentDistance s' = distanceD x
    ∧ weaponStore s' = armory g
    ∧ (∀ l, l ≠ unitLoc g → l ≠ oppLoc g → unitStore s' !! l = others g !! l).
Proof.
  intros Hg. pose proof Hg as (Hne & _ & _).
  assert (hasFoughtInMeleeThisTurn (unitD (handleMeleeRoundD rnd x)) = true
          ∧ hasFoughtInMeleeThisTurn (oppD (handleMeleeRoundD rnd x)) = true) as [F1 F2].
  { unfold handleMeleeRoundD.
    repeat match goal with |- context [if ?c then _ else _] => destruct c end;
      try (destruct (moraleD_flags rnd false (meleeKillsD rnd x)) as [-> ->]; done);
      try (destruct (moraleD_flags rnd true (meleeKillsD rnd x)) as [-> ->]; done);
      done. }
  destruct (handleMeleeRoundD_log rnd x) as (_ & _ & _ & D).
  exists (embed g (handleMeleeRoundD rnd x)), (unitD (handleMeleeRoundD rnd x)),
    (oppD (handleMeleeRoundD rnd x)).
  split; [by apply handleMeleeRound_run |]. simpl.
  split; [by rewrite lookup_insert_eq |].
  split; [by rewrite lookup_insert_ne, lookup_insert_eq |].
  split; [done |]. split; [done |].
  unfold effectiveQuality. rewrite F1, F2.
  split; [done |]. split; [done |]. split; [done |]. split; [done |].
  intros l H1 H2. by rewrite !lookup_insert_ne.
Qed.

(** [melee_round_tires_both] on the knights and the scribe in
    contact. *)
Lemma melee_round_tires_both_witness :
  grounded meleeGround inContact
  ∧ ∃ s' c1 c2,
      handleMeleeRound fifteenSixes 1%positive 2%positive (embed meleeGround inContact)
      = Some (tt, s')
      ∧ unitStore s' !! 1%positive = Some c1 ∧ unitStore s' !! 2%positive = Some c2
      ∧ hasFoughtInMeleeThisTurn c1 = true ∧ hasFoughtInMeleeThisTurn c2 = true.
Proof.
  assert (grounded meleeGround inContact) as Hg.
  { split; [done |]. split; reflexivity. }
  split; [exact Hg |].
  destruct (melee_round_tires_both fifteenSixes meleeGround inContact Hg)
    as (s' & c1 & c2 & Run & H1 & H2 & F1 & F2 & _).
  exists s', c1, c2. split; [exact Run |]. split; [exact H1 |]. split; [exact H2 |].
  split; [exact F1 | exact F2].
Defined.

(** X15. A shaken unit spends its action recovering: [unitActs] reports
    no charge, logs the idling, clears the unit's [shaken] flag and
    changes nothing else (distance, opponent, dice); whatever the
    situation, the unit's next decision is not to idle. *)
Theorem shaken_unit_idles_once (rnd : nat → Z) (g : Ground) (x : Duel) :
  grounded g x →
  shaken (unitD x) = true →
  ∃ s',
    unitActs rnd (unitLoc g) (oppLoc g) (embed g x) = Some (false, s')
    ∧ unitStore s' !! unitLoc g = Some (with_shaken false (unitD x))
    ∧ unitStore s' !! oppLoc g = Some (oppD x)
    ∧ currentDistance s' = distanceD x
    ∧ cursor s' = cursorD x
    ∧ log s' = logD x ++ [LogIdles (name (unitD x))]
    ∧ ∀ (o : Unit) (d : Z),
        decideAction (with_weapons (unitArms x) (with_shaken false (unitD x))) o d ≠ idle.
Proof.
  intros Hg Hs. pose proof Hg as (Hne & _ & _).
  assert (unitActsD rnd x
          = (false, setUnit (with_shaken false) (say (LogIdles (name (unitD x))) x))) as E.
  { unfold unitActsD, decideAction. simpl. by rewrite Hs. }
  exists (embed g (unitActsD rnd x).2).
  split; [rewrite (unitActs_run rnd g x Hg); by rewrite E |].
  rewrite E. simpl.
  split; [by rewrite lookup_insert_eq |].
  split; [by rewrite lookup_insert_ne, lookup_insert_eq |].
  split; [done |]. split; [done |]. split; [done |].
  intros o d. unfold decideAction; simpl.
  destruct (d =? 0); [by destruct (Qgtb _ _) |].
  destruct (d <=? _); [done |].
  destruct (find _ _) as [w |]; [| done].
  destruct (d <=? Range w); [done |]. by destruct (d <=? _).
Qed.

(** [shaken_unit_idles_once] on the knights, shaken, in contact. *)
Lemma shaken_unit_idles_once_witness :
  grounded meleeGround (setUnit (with_shaken true) inContact)
  ∧ shaken (unitD (setUnit (with_shaken true) inContact)) = true
  ∧ ∃ s',
      unitActs fifteenSixes 1%positive 2%positive
        (embed meleeGround (setUnit (with_shaken true) inContact)) = Some (false, s')
      ∧ cursor s' = 0%nat
      ∧ log s' = [] ++ [LogIdles "Knights"].
Proof.
  assert (grounded meleeGround (setUnit (with_shaken true) inContact)) as Hg.
  { split; [done |]. split; reflexivity. }
  split; [exact Hg |]. split; [reflexivity |].
  destruct (shaken_unit_idles_once fifteenSixes meleeGround
              (setUnit (with_shaken true) inContact) Hg)
    as (s' & Run & _ & _ & _ & Hk & Hl & _); [reflexivity |].
  exists s'. split; [exact Run |]. split; [exact Hk | exact Hl].
Defined.

(** X16. A rush moves the unit towards the opponent by its charge
    range, stopping at distance 0, and does nothing else: no die is
    drawn and no unit changes. With a charge range that is not
    negative the distance does not grow and from a distance that is
    not negative it does not become negative. *)
Theorem rush_only_closes_distance (rnd : nat → Z) (g : Ground) (x : Duel) :
  grounded g x →
  decideAction (viewOfUnit x) (viewOfOpp x) (distanceD x) = rush →
  ∃ s',
    unitActs rnd (unitLoc g) (oppLoc g) (embed g x) = Some (false, s')
    ∧ currentDistance s' = Z.max 0 (distanceD x - chargeRange (unitD x))
    ∧ unitStore s' = unitStore (embed g x)
    ∧ cursor s' = cursorD x
    ∧ log s' = logD x ++ [LogRushes (name (unitD x)) (chargeRange (unitD x))]
    ∧ (0 <= chargeRange (unitD x) → 0 <= distanceD x →
       0 <= currentDistance s' <= distanceD x).
Proof.
  intros Hg Hd.
  assert (unitActsD rnd x
          = (false, say (LogRushes (name (unitD x)) (chargeRange (unitD x)))
                      (setDist (Z.max 0 (distanceD x - chargeRange (unitD x))) x))) as E.
  { unfold unitActsD. by rewrite Hd. }
  exists (embed g (unitActsD rnd x).2).
  split; [rewrite (unitActs_run rnd g x Hg); by rewrite E |].
  rewrite E. simpl.
  split; [done |]. split; [done |]. split; [done |]. split; [done |]. lia.
Qed.

(** [rush_only_closes_distance] on the knights 40 away from the
    scribe: they rush 12. *)
Lemma rush_only_closes_distance_witness :
  grounded meleeGround (setDist 40 inContact)
  ∧ decideAction (viewOfUnit (setDist 40 inContact)) (viewOfOpp (setDist 40 inContact)) 40
    = rush
  ∧ ∃ s',
      unitActs fifteenSixes 1%positive 2%positive (embed meleeGround (setDist 40 inContact))
      = Some (false, s')
      ∧ currentDistance s' = 28.
Proof.
  assert (grounded meleeGround (setDist 40 inContact)) as Hg.
  { split; [done |]. split; reflexivity. }
  split; [exact Hg |]. split; [reflexivity |].
  destruct (rush_only_closes_distance fifteenSixes meleeGround (setDist 40 inContact) Hg)
    as (s' & Run & Hd & _); [reflexivity |].
  exists s'. split; [exact Run | exact Hd].
Defined.

(** The references [cloneWeapons] returns are new and pairwise
    distinct. *)
Lemma cloneWeapons_fresh ls : ∀ s ls' s',
  cloneWeapons ls s = Some (ls', s') →
  Forall (fun l => weaponStore s !! l = None) ls'
  ∧ NoDup ls'
  ∧ weaponStore s ⊆ weaponStore s'
  ∧ Forall (fun l => is_Some (weaponStore s' !! l)) ls'.
Proof.
  induction ls as [| l ls IH]; intros s ls' s' H; simpl in H.
  - inversion H; subst. split; [constructor |]. split; [constructor |]. done.
  - unfold mbind, sim_bind in H.
    unfold readWeapon in H at 1.
    destruct (weaponStore s !! l) as [w |]; [| done].
    unfold allocWeapon in H at 1.
    set (l1 := fresh (dom (weaponStore s))) in *.
    set (s1 := with_weaponStore (<[l1 := w]> (weaponStore s)) s) in *.
    destruct (cloneWeapons ls s1) as [[rest s2] |] eqn:E; [| done].
    inversion H; subst ls' s'.
    destruct (IH s1 rest s2 E) as (Hf & Hn & Hsub & Hin).
    assert (weaponStore s !! l1 = None) as Hl1 by apply fresh_weapon_None.
    assert (weaponStore s ⊆ weaponStore s1) as Hsub1 by (by apply insert_subseteq).
    assert (weaponStore s1 !! l1 = Some w) as Hs1 by apply lookup_insert_eq.
    split; [| split; [| split]].
    + constructor; [done |].
      eapply Forall_impl; [exact Hf |]. intros l' Hl'. simpl in Hl'.
      apply lookup_insert_None in Hl' as [? _]. done.
    + constructor; [| done].
      intros Hin'. rewrite Forall_forall in Hf. specialize (Hf l1 Hin'). congruence.
    + by etrans.
    + constructor; [| done]. exists w. by eapply lookup_weaken.
Qed.

(** X17. [cloneUnit] makes a deep copy: on a valid unit it returns a
    reference that was not in use, to a unit whose weapon array holds
    references that were not in use either, pairwise distinct, to
    weapons with the contents of the original's; the clone starts with
    the original's model count as [numModels] and [originalNumModels],
    not shaken and not fatigued; every object of the store stays as it
    was, and so do the distance, the log and the dice. *)
Theorem cloneUnit_deep_copy (l : loc) (s : Sim) (u : UnitObj) (ws : list Weapon) :
  unitStore s !! l = Some u →
  lookupWeapons (weaponStore s) (weapons u) = Some ws →
  ∃ l' c s',
    cloneUnit l s = Some (l', s')
    ∧ unitStore s !! l' = None
    ∧ unitStore s' = <[l' := c]> (unitStore s)
    ∧ weaponStore s ⊆ weaponStore s'
    ∧ lookupWeapons (weaponStore s') (weapons c) = Some ws
    ∧ Forall (fun wl => weaponStore s !! wl = None) (weapons c)
    ∧ NoDup (weapons c)
    ∧ (numModels c = numModels u ∧ originalNumModels c = numModels u
       ∧ shaken c = false ∧ hasFoughtInMeleeThisTurn c = false
       ∧ name c = name u ∧ quality c = quality u ∧ defense c = defense u
       ∧ specialRules c = specialRules u)
    ∧ (currentDistance s' = currentDistance s ∧ log s' = log s ∧ cursor s' = cursor s).
Proof.
  intros Hu Hws.
  destruct (cloneWeapons_run (weapons u) s ws Hws) as (ls' & h' & Hrun & Hsub & Hl).
  destruct (cloneWeapons_fresh (weapons u) s ls' _ Hrun) as (Hf & Hn & _ & _).
  exists (fresh (dom (unitStore s))), (cloneOf u ls'),
    (with_unitStore (<[fresh (dom (unitStore s)) := cloneOf u ls']> (unitStore s))
       (with_weaponStore h' s)).
  split.
  { unfold cloneUnit.
    erewrite bind_run; [| unfold readUnit; by rewrite Hu].
    erewrite bind_run; [| exact Hrun]. done. }
  split; [apply fresh_unit_None |].
  repeat split; done.
Qed.

(** [cloneUnit_deep_copy] on the knights of the field. *)
Lemma cloneUnit_deep_copy_witness :
  unitStore field !! 1%positive = Some knights
  ∧ lookupWeapons (weaponStore field) (weapons knights) = Some [sword]
  ∧ ∃ l' c s',
      cloneUnit 1%positive field = Some (l', s')
      ∧ unitStore s' = <[l' := c]> (unitStore field)
      ∧ lookupWeapons (weaponStore s') (weapons c) = Some [sword]
      ∧ Forall (fun wl => weaponStore field !! wl = None) (weapons c).
Proof.
  split; [reflexivity |]. split; [reflexivity |].
  destruct (cloneUnit_deep_copy 1%positive field knights [sword])
    as (l' & c & s' & Run & _ & Hs & _ & Hl & Hf & _); [reflexivity | reflexivity |].
  exists l', c, s'. split; [exact Run |]. split; [exact Hs |]. split; [exact Hl | exact Hf].
Defined.

(** ** The analysis beside the simulation *)







(** ** The turn headers of the log *)

Definition isTurnEntry (e : LogEntry) : bool :=
  match e with
  | LogTurn _ => true
  | _ => false
  end.

(** [x'] has the log of [x] followed by entries none of which is a
    turn header. *)
Definition loggedInTurn (x x' : Duel) : Prop :=
  ∃ es, logD x' = logD x ++ es ∧ List.filter isTurnEntry es = [].

Lemma loggedInTurn_refl x : loggedInTurn x x.
Proof. exists []. by rewrite app_nil_r. Qed.

Lemma loggedInTurn_trans x y z : loggedInTurn x y → loggedInTurn y z → loggedInTurn x z.
Proof.
  intros (es & L1 & F1) (es' & L2 & F2). exists (es ++ es').
  split; [by rewrite L2, L1, app_assoc |].
  by rewrite List.filter_app, F1, F2.
Qed.

Lemma loggedInTurn_say x e : isTurnEntry e = false → loggedInTurn x (say e x).
Proof. intros He. exists [e]. split; [done |]. simpl. by rewrite He. Qed.

Section TurnHeaders.

Variable rnd : nat → Z.

Lemma moraleD_inTurn b x : loggedInTurn x (moraleD rnd b x).
Proof.
  unfold moraleD, loggedInTurn.
  destruct b; simpl;
    (match goal with |- context [0 <? ?n] => destruct (0 <? n) end;
     [| apply loggedInTurn_refl]);
    destruct (resolvePostCombatMorale rnd _ _ _) as [[] k]; simpl;
    eexists [_; _]; (split; [by rewrite <- app_assoc |]); done.
Qed.

Lemma handleMeleeRoundD_inTurn x : loggedInTurn x (handleMeleeRoundD rnd x).
Proof.
  unfold handleMeleeRoundD.
  assert (loggedInTurn x (meleeKillsD rnd x)) as H1 by (eexists [_]; done).
  repeat match goal with |- context [if ?c then _ else _] => destruct c end.
  - eapply loggedInTurn_trans; [exact H1 | apply moraleD_inTurn].
  - eapply loggedInTurn_trans; [exact H1 | apply moraleD_inTurn].
  - eapply loggedInTurn_trans; [exact H1 | by apply loggedInTurn_say].
Qed.

Lemma shootD_inTurn u o x : loggedInTurn x (shootD rnd u o x).
Proof.
  unfold shootD. destruct (firedWeapon u (distanceD x)); [| apply loggedInTurn_refl].
  eexists [_]. done.
Qed.

Lemma unitActsD_inTurn x : loggedInTurn x (unitActsD rnd x).2.
Proof.
  unfold unitActsD.
  destruct (decideAction (viewOfUnit x) (viewOfOpp x) (distanceD x)); simpl.
  - eexists [_]. done.
  - eapply loggedInTurn_trans; [| apply handleMeleeRoundD_inTurn]. eexists [_]. done.
  - eapply loggedInTurn_trans; [| apply shootD_inTurn].
    unfold advanceMoveD. destruct (distanceD x =? 0); eexists [_]; done.
  - eapply loggedInTurn_trans; [| apply handleMeleeRoundD_inTurn]. eexists [_]. done.
  - eapply loggedInTurn_trans; [| apply shootD_inTurn]. eexists [_]. done.
  - eexists [_]. done.
Qed.

Lemma actInOrderD_inTurn x : loggedInTurn x (actInOrderD rnd x).
Proof.
  unfold actInOrderD.
  set (cx := if 0 <? numModels (unitD x) then unitActsD rnd x else (false, x)).
  assert (loggedInTurn x cx.2) as H1.
  { subst cx. destruct (0 <? numModels (unitD x)); simpl;
      [apply unitActsD_inTurn | apply loggedInTurn_refl]. }
  destruct (_ && _); [| done].
  eapply loggedInTurn_trans; [exact H1 |].
  destruct (unitActsD_inTurn (swapD cx.2)) as (es & L & F). by exists es.
Qed.

Lemma runTurnD_headers af turn x :
  List.filter isTurnEntry (logD (runTurnD rnd af turn x))
  = List.filter isTurnEntry (logD x) ++ [LogTurn turn].
Proof.
  rewrite runTurnD_orient, orient_log.
  destruct (actInOrderD_inTurn (orient af (turnHeadD turn x))) as (es & L & F).
  rewrite L, orient_log. simpl.
  rewrite !List.filter_app, F. simpl. by rewrite app_nil_r.
Qed.

Lemma turnsFrom_headers af n t x :
  List.filter isTurnEntry (logD (turnsFrom rnd af n t x))
  = List.filter isTurnEntry (logD x)
    ++ List.map (fun i => LogTurn (t + Z.of_nat i)) (List.seq 0 n).
Proof.
  induction n as [| n IH].
  - simpl. by rewrite app_nil_r.
  - rewrite turnsFrom_S, runTurnD_headers, IH.
    rewrite List.seq_S, List.map_app, app_assoc. done.
Qed.

Lemma turnsFrom_log_grows af n t x :
  ∃ es, logD (turnsFrom rnd af n t x) = logD x ++ es.
Proof.
  revert t x. induction n as [| n IH]; intros t x; simpl.
  - exists []. by rewrite app_nil_r.
  - destruct (IH (t + 1) (runTurnD rnd af t x)) as (es & ->).
    rewrite runTurnD_orient, orient_log.
    destruct (actInOrderD_inTurn (orient af (turnHeadD t x))) as (es' & -> & _).
    rewrite orient_log. simpl. rewrite <- !app_assoc. by eexists.
Qed.

Lemma turnsFrom_first_header af n t x :
  ∃ es, logD (turnsFrom rnd af (S n) t x) = logD x ++ LogTurn t :: es.
Proof.
  change (turnsFrom rnd af (S n) t x)
    with (turnsFrom rnd af n (t + 1) (runTurnD rnd af t x)).
  destruct (turnsFrom_log_grows af n (t + 1) (runTurnD rnd af t x)) as (es & ->).
  rewrite runTurnD_orient, orient_log.
  destruct (actInOrderD_inTurn (orient af (turnHeadD t x))) as (es' & -> & _).
  rewrite orient_log. simpl. rewrite <- !app_assoc. by eexists.
Qed.

End TurnHeaders.

(** X20. On valid input the log returned holds one turn header for
    each turn played, numbered 1, 2, ... up to [turnsElapsed] in this
    order, and when a turn was played the log begins with the header
    of turn 1. *)
Theorem simulate_log_has_a_header_per_turn (rnd : nat → Z) (unitA unitB : loc)
    (startingDistance : option Z) (attackerFirst : option bool) (s : Sim)
    (ua ub : UnitObj) (wsA wsB : list Weapon) :
  validInput s unitA unitB ua ub wsA wsB →
  ∃ r s',
    simulateRangedExchangeUntilMelee rnd unitA unitB startingDistance attackerFirst s
    = Some (r, s')
    ∧ List.filter isTurnEntry (resultLog r)
      = List.map (fun i => LogTurn (1 + Z.of_nat i))
          (List.seq 0 (Z.to_nat (turnsElapsed r)))
    ∧ (0 < turnsElapsed r → head (resultLog r) = Some (LogTurn 1)).
Proof.
  intros Hv.
  destruct (simulate_turns rnd unitA unitB startingDistance attackerFirst s
              ua ub wsA wsB Hv) as (g & lsA & lsB & T & Run & _).
  cbv zeta in Run.
  eexists _, _. split; [exact Run |]. simpl.
  replace (Z.to_nat (1 + Z.of_nat T - 1)) with T by lia.
  split; [by rewrite turnsFrom_headers |].
  intros HT. destruct T as [| T]; [lia |].
  destruct (turnsFrom_first_header rnd (default true attackerFirst) T 1
              (startDuel ua lsA wsA ub lsB wsB (default 24 startingDistance) (cursor s)))
    as (es & ->).
  done.
Qed.

(** [simulate_log_has_a_header_per_turn] on the field. *)
Lemma simulate_log_has_a_header_per_turn_witness :
  validInput field 1%positive 2%positive knights scribe [sword] []
  ∧ ∃ r s',
      simulateRangedExchangeUntilMelee fifteenSixes 1%positive 2%positive
        (Some 0) (Some true) field = Some (r, s')
      ∧ List.filter isTurnEntry (resultLog r)
        = List.map (fun i => LogTurn (1 + Z.of_nat i))
            (List.seq 0 (Z.to_nat (turnsElapsed r))).
Proof.
  split; [repeat split; reflexivity |].
  destruct (simulate_log_has_a_header_per_turn fifteenSixes 1%positive 2%positive
              (Some 0) (Some true) field knights scribe [sword] [])
    as (r & s' & Run & Hh & _); [repeat split; reflexivity |].
  exists r, s'. split; [exact Run | exact Hh].
Defined.

(** [calculateHits_bounds] with the lance, which has no Predator tag,
    carried by three models. *)
Lemma calculateHits_bounds_witness :
  Predator lance = false
  ∧ (calculateHits hitsThenFails lance tiredVeterans 3 0%nat).2 = 3%nat.
Proof.
  split; [reflexivity |].
  destruct (calculateHits_bounds hitsThenFails lance tiredVeterans 3 0%nat)
    as (_ & _ & _ & H).
  apply H. reflexivity.
Defined.

(** [meleeWeapon_first_or_baseline] at the veterans, whose sword is a
    melee weapon. *)
Lemma meleeWeapon_first_or_baseline_witness :
  Range (meleeWeapon tiredVeterans) = 0 ∧ Attacks (meleeWeapon tiredVeterans) = 2.
Proof.
  destruct (meleeWeapon_first_or_baseline tiredVeterans)
    as [(i & _ & H & _) | (_ & H & _)].
  - split; [exact H | reflexivity].
  - simpl in H. lia.
Defined.
